(** * The image acquisition and naming cache of the poster scraper

    A shallow embedding of [src/get_image.py]: the filename deriver
    ([sanitize_title], [filename_from_title]), the cache-aware resolver
    ([choose_filename]), the asset fetcher ([build_session],
    [download_image]) and the cache reconciler ([main]), followed by the
    properties the specification states about them.  The category summary
    of [src/get_category.py] and the link field parser of
    [src/get_meta.py] are embedded after it, with what the code shows
    about them.

    Conventions of the embedding.
    - A Python [str] is a Rocq [string]; its characters are read as code
      points below 256, and the whitespace class is Python's on that range.
    - [image_cache] is an insertion-ordered association list, because the
      inverse index built at start-up lets the last entry win and because
      [json.dumps] prints entries in insertion order; [url_to_filename] is
      a [gmap], [reserved_names] a [gset].
    - The asset store and the cache file live in one finite map from paths
      to contents.  Every primitive file operation is applied to that map
      and appended to a history, so that what is on disk at any instant of
      a run is the replay of a prefix of the history.
    - The remote side is a function from a URL and the number of requests
      sent so far to the reply the next request receives.
    - Exceptions are values of [exn]; a computation returns [result]. *)

From Stdlib Require Import Ascii.
From stdpp Require Import gmap strings list fin_maps pretty sorting.

Open Scope string_scope.
Open Scope nat_scope.
Open Scope list_scope.

(** ** Python string helpers *)

(** [str.isspace] on code points below 256, which is also what [\s] matches
    in a [str] pattern: TAB..CR, FS..US, SPACE, NEL and NBSP. *)
Definition is_space (c : ascii) : bool :=
  let n := nat_of_ascii c in
  (((9 <=? n) && (n <=? 13)) || ((28 <=? n) && (n <=? 32))
   || (n =? 133) || (n =? 160))%nat.

Definition is_char (x : ascii) (c : ascii) : bool := bool_decide (c = x).

Definition dquote : ascii := "034"%char.
Definition newline : ascii := "010"%char.

(** The character class of [sanitize_title]'s second substitution:
    backslash, slash, colon, star, question mark, double quote, the two
    angle brackets and the bar. *)
Definition is_illegal (c : ascii) : bool :=
  is_char "\" c || is_char "/" c || is_char ":" c || is_char "*" c
  || is_char "?" c || is_char dquote c || is_char "<" c || is_char ">" c
  || is_char "|" c.

Fixpoint lstrip (P : ascii → bool) (s : string) : string :=
  match s with
  | EmptyString => EmptyString
  | String c s' => if P c then lstrip P s' else s
  end.

Fixpoint rstrip (P : ascii → bool) (s : string) : string :=
  match s with
  | EmptyString => EmptyString
  | String c s' =>
      match rstrip P s' with
      | EmptyString => if P c then EmptyString else String c EmptyString
      | r => String c r
      end
  end.

Definition strip (P : ascii → bool) (s : string) : string :=
  rstrip P (lstrip P s).

(** [re.sub(r"[class]+", "_", s)]: every maximal run of characters of the
    class becomes one underscore.  [in_run] tells that the previous
    character belonged to the class. *)
Fixpoint sub_runs_from (P : ascii → bool) (in_run : bool) (s : string) : string :=
  match s with
  | EmptyString => EmptyString
  | String c s' =>
      if P c then
        if in_run then sub_runs_from P true s'
        else String "_" (sub_runs_from P true s')
      else String c (sub_runs_from P false s')
  end.

Definition sub_runs (P : ascii → bool) (s : string) : string :=
  sub_runs_from P false s.

(** Python's [a or b] on strings: the empty string is falsy. *)
Definition str_or (a b : string) : string :=
  match a with EmptyString => b | _ => a end.

(** [(before, rest)] where [rest] starts at the first character satisfying
    [P], or is empty when there is none. *)
Fixpoint break_on (P : ascii → bool) (s : string) : string * string :=
  match s with
  | EmptyString => (EmptyString, EmptyString)
  | String c s' =>
      if P c then (EmptyString, s)
      else let '(a, b) := break_on P s' in (String c a, b)
  end.

Fixpoint str_forall (P : ascii → bool) (s : string) : bool :=
  match s with
  | EmptyString => true
  | String c s' => P c && str_forall P s'
  end.

Fixpoint str_filter (P : ascii → bool) (s : string) : string :=
  match s with
  | EmptyString => EmptyString
  | String c s' => if P c then String c (str_filter P s') else str_filter P s'
  end.

Fixpoint str_map (f : ascii → ascii) (s : string) : string :=
  match s with
  | EmptyString => EmptyString
  | String c s' => String (f c) (str_map f s')
  end.

(** The components of a path: the pieces between slashes. *)
Fixpoint split_slash (cur : string) (s : string) : list string :=
  match s with
  | EmptyString => [String.rev cur]
  | String c s' =>
      if is_char "/" c then String.rev cur :: split_slash EmptyString s'
      else split_slash (String c cur) s'
  end.

(** ** [urllib.parse.urlparse(url).path] and [pathlib] name parts

    The path component as CPython 3.11 to 3.13 compute it: leading C0
    controls and spaces are stripped, TAB, CR and LF removed, then the
    scheme, the authority after [//], the fragment, the query and, for the
    schemes that take them, the parameters of the last segment are cut
    off.  The [ValueError] raised for a malformed bracketed host is not
    modelled. *)

Definition is_c0_or_space (c : ascii) : bool := (nat_of_ascii c <=? 32)%nat.

Definition is_tab_cr_lf (c : ascii) : bool :=
  let n := nat_of_ascii c in ((n =? 9) || (n =? 10) || (n =? 13))%nat.

Definition is_upper (c : ascii) : bool :=
  let n := nat_of_ascii c in ((65 <=? n) && (n <=? 90))%nat.
Definition is_lower (c : ascii) : bool :=
  let n := nat_of_ascii c in ((97 <=? n) && (n <=? 122))%nat.
Definition is_digit (c : ascii) : bool :=
  let n := nat_of_ascii c in ((48 <=? n) && (n <=? 57))%nat.
Definition is_alpha (c : ascii) : bool := is_upper c || is_lower c.

Definition is_scheme_char (c : ascii) : bool :=
  is_alpha c || is_digit c || is_char "+" c || is_char "-" c || is_char "." c.

Definition to_lower (c : ascii) : ascii :=
  if is_upper c then ascii_of_nat (nat_of_ascii c + 32) else c.

Definition uses_params : list string :=
  [""; "ftp"; "hdl"; "prospero"; "http"; "imap"; "https"; "shttp"; "rtsp";
   "rtsps"; "rtspu"; "sip"; "sips"; "mms"; "sftp"; "tel"].

(** [(scheme, rest)] of [urlsplit]. *)
Definition split_scheme (url : string) : string * string :=
  let '(pre, rest) := break_on (is_char ":") url in
  match rest, pre with
  | String _ after, String c0 _ =>
      if is_alpha c0 && str_forall is_scheme_char pre
      then (str_map to_lower pre, after)
      else (EmptyString, url)
  | _, _ => (EmptyString, url)
  end.

Definition is_netloc_end (c : ascii) : bool :=
  is_char "/" c || is_char "?" c || is_char "#" c.

Definition drop_netloc (url : string) : string :=
  match url with
  | String a (String b rest) =>
      if is_char "/" a && is_char "/" b then snd (break_on is_netloc_end rest)
      else url
  | _ => url
  end.

(** [_splitparams]: the parameters start at the first [;] of the last
    segment. *)
Definition split_params (path : string) : string :=
  let segs := split_slash EmptyString path in
  match reverse segs with
  | [] => path
  | last_seg :: before_rev =>
      let kept := fst (break_on (is_char ";") last_seg) in
      foldr (λ seg acc, seg +:+ "/" +:+ acc) kept (reverse before_rev)
  end.

Definition urlparse_path (url : string) : string :=
  let url := lstrip is_c0_or_space url in
  let url := str_filter (λ c, negb (is_tab_cr_lf c)) url in
  let '(scheme, url) := split_scheme url in
  let url := drop_netloc url in
  let url := fst (break_on (is_char "#") url) in
  let url := fst (break_on (is_char "?") url) in
  if bool_decide (scheme ∈ uses_params) then split_params url else url.

(** [PurePosixPath(p).name]: the last component that is neither empty nor
    a single dot. *)
Definition path_name (p : string) : string :=
  let parts :=
    filter (λ s, s ≠ EmptyString ∧ s ≠ ".") (split_slash EmptyString p) in
  default EmptyString (last parts).

(** Position of the last dot of [name], counted from the end: the pair
    (text before the last dot, text from the last dot on). *)
Fixpoint rsplit_dot (s : string) : option (string * string) :=
  match s with
  | EmptyString => None
  | String c s' =>
      match rsplit_dot s' with
      | Some (a, b) => Some (String c a, b)
      | None => if is_char "." c then Some (EmptyString, s) else None
      end
  end.

(** [suffix]: from the last dot on, unless that dot is the first or the
    last character of the name. *)
Definition path_suffix (p : string) : string :=
  match rsplit_dot (path_name p) with
  | Some (String _ _, String _ (String c r)) => String "." (String c r)
  | _ => EmptyString
  end.

Definition path_stem (p : string) : string :=
  match rsplit_dot (path_name p) with
  | Some (String c a, String _ (String _ _)) => String c a
  | _ => path_name p
  end.

(** ** Filename deriver *)

Definition sanitize_title (title : string) : string :=
  let cleaned := sub_runs is_space (strip is_space title) in
  let cleaned := sub_runs is_illegal cleaned in
  let cleaned := sub_runs (is_char "_") cleaned in
  str_or (strip (is_char "_") cleaned) "image".

Definition filename_from_title (title url : string) (index total : nat)
  : string * string :=
  let path := urlparse_path url in
  let ext := path_suffix path in
  let ext := match ext with EmptyString => ".jpg" | _ => ext end in
  let base_title :=
    str_or (sanitize_title title) (sanitize_title (path_stem path)) in
  let base_title :=
    if (1 <? total)%nat then base_title +:+ "_" +:+ pretty (index + 1)
    else base_title in
  (base_title, ext).

(** ** The name cache: a Python [dict] in insertion order *)

Definition dict : Type := list (string * string).

Fixpoint dict_get (k : string) (d : dict) : option string :=
  match d with
  | [] => None
  | (k', v) :: d' => if decide (k' = k) then Some v else dict_get k d'
  end.

(** [k in d] *)
Definition dict_mem (k : string) (d : dict) : bool :=
  match dict_get k d with Some _ => true | None => false end.

(** [d[k] = v]: an existing key keeps its position, a new one goes last. *)
Fixpoint dict_set (k v : string) (d : dict) : dict :=
  match d with
  | [] => [(k, v)]
  | (k', v') :: d' =>
      if decide (k' = k) then (k, v) :: d' else (k', v') :: dict_set k v d'
  end.

Fixpoint dict_remove (k : string) (d : dict) : dict :=
  match d with
  | [] => []
  | (k', v') :: d' =>
      if decide (k' = k) then dict_remove k d' else (k', v') :: dict_remove k d'
  end.

(** [del d[k]]: [None] stands for the [KeyError] of a missing key. *)
Definition dict_del (k : string) (d : dict) : option dict :=
  if dict_mem k d then Some (dict_remove k d) else None.

Definition dict_keys (d : dict) : list string := d.*1.

(** ** Exceptions and results

    [LoopFuelExhausted] is not a Python exception: it stands for the
    resolver's loop outliving the iterations the model grants it, which
    never happens ([choose_filename_returns]). *)

Inductive exn : Type :=
| HTTPError (status : nat)
| ConnectionError
| RetryError (status : nat)
| ChunkedEncodingError
| KeyError (key : string)
| FileNotFoundError (path : string)
| LoopFuelExhausted.

Inductive result (A : Type) : Type :=
| Ok (a : A)
| Raise (e : exn).
Arguments Ok {A} a.
Arguments Raise {A} e.

(** ** The file system and the network *)

Inductive fs_op : Type :=
| OpOpenW (p : string)
| OpWrite (p : string) (data : string)
| OpUnlink (p : string)
| OpReplace (src dst : string).

(** One primitive operation on the path-to-content map: opening for
    writing creates or truncates, writing appends to the file, unlinking
    removes it, and [os.replace] / [os.rename] moves the content of [src]
    to [dst] in one step, overwriting [dst] (POSIX). *)
Definition exec_op (op : fs_op) (fs : gmap string string) : gmap string string :=
  match op with
  | OpOpenW p => <[p := EmptyString]> fs
  | OpWrite p data => alter (λ c, c +:+ data) p fs
  | OpUnlink p => delete p fs
  | OpReplace src dst =>
      match fs !! src with
      | Some c => <[dst := c]> (delete src fs)
      | None => fs
      end
  end.

Definition replay (ops : list fs_op) (fs : gmap string string) : gmap string string :=
  foldl (λ fs op, exec_op op fs) fs ops.

(** The paths an operation writes to. *)
Definition op_targets (op : fs_op) : list string :=
  match op with
  | OpOpenW p | OpWrite p _ | OpUnlink p => [p]
  | OpReplace src dst => [src; dst]
  end.

(** What one HTTP request receives: a status line and a body delivered in
    chunks, whose delivery either completes or breaks after the listed
    chunks; or no answer at all (refused connection, time-out). *)
Inductive reply : Type :=
| Reply (status : nat) (chunks : list string) (complete : bool)
| NoReply.

Record world : Type := World {
  files : gmap string string;
  net : string → nat → reply;
  sent : nat;
  history : list fs_op
}.

Definition fs_do (op : fs_op) (w : world) : world :=
  World (exec_op op (files w)) (net w) (sent w) (history w ++ [op]).

Definition request_sent (w : world) : world :=
  World (files w) (net w) (S (sent w)) (history w).

(** [Path.exists()] *)
Definition path_exists (p : string) (w : world) : bool :=
  match files w !! p with Some _ => true | None => false end.

(** ** Asset fetcher *)

Record response : Type := Response {
  status_code : nat;
  body_chunks : list string;
  body_complete : bool
}.

(** What a session retries by itself: the [Retry] policy of the adapter
    mounted on it. *)
Record session : Type := Session {
  retry_total : nat;
  status_forcelist : list nat
}.

(** [build_session]: [Retry(total=5, backoff_factor=1,
    status_forcelist=(429, 500, 502, 503, 504), allowed_methods={"GET"})]
    mounted for both schemes.  The pauses between retries and the
    [User-Agent] header have no counterpart in the model. *)
Definition build_session : session := Session 5 [429; 500; 502; 503; 504].

(** The adapter's loop: a request that gets no answer or a status of the
    force list is sent again while the retry budget lasts; when it is used
    up the adapter raises.  Any other status is handed to the caller as a
    response. *)
Fixpoint send_with_retry (forcelist : list nat) (budget : nat) (url : string)
    (w : world) : result response * world :=
  let w' := request_sent w in
  match net w url (sent w) with
  | NoReply =>
      match budget with
      | O => (Raise ConnectionError, w')
      | S b => send_with_retry forcelist b url w'
      end
  | Reply status chunks complete =>
      if bool_decide (status ∈ forcelist) then
        match budget with
        | O => (Raise (RetryError status), w')
        | S b => send_with_retry forcelist b url w'
        end
      else (Ok (Response status chunks complete), w')
  end.

(** [session.get(url, timeout=30, stream=True)] *)
Definition session_get (s : session) (url : string) (w : world)
  : result response * world :=
  send_with_retry (status_forcelist s) (retry_total s) url w.

(** [resp.raise_for_status()] raises for 4xx and 5xx. *)
Definition is_error_status (status : nat) : bool :=
  ((400 <=? status) && (status <? 600))%nat.

(** [destination.with_suffix(destination.suffix + ".part")] *)
Definition temp_path (destination : string) : string :=
  destination +:+ ".part".

(** The inner [for chunk in resp.iter_content(...)] loop. *)
Definition write_chunks (temp : string) (chunks : list string) (w : world) : world :=
  foldl (λ w chunk,
           match chunk with
           | EmptyString => w
           | _ => fs_do (OpWrite temp chunk) w
           end) w chunks.

(** The body of the [try] block of [download_image]. *)
Definition try_download (url destination : string) (s : session) (w : world)
  : result unit * world :=
  let temp := temp_path destination in
  match session_get s url w with
  | (Raise e, w1) => (Raise e, w1)
  | (Ok resp, w1) =>
      if is_error_status (status_code resp)
      then (Raise (HTTPError (status_code resp)), w1)
      else
        let w2 := fs_do (OpOpenW temp) w1 in
        let w3 := write_chunks temp (body_chunks resp) w2 in
        if body_complete resp
        then (Ok tt, fs_do (OpReplace temp destination) w3)
        else (Raise ChunkedEncodingError, w3)
  end.

(** [for attempt in range(1, retries + 1)], over the attempts left. *)
Fixpoint download_attempts (attempts : list nat) (retries : nat)
    (url destination : string) (s : session) (w : world)
  : result unit * world :=
  match attempts with
  | [] => (Ok tt, w)
  | attempt :: rest =>
      match try_download url destination s w with
      | (Ok tt, w') => (Ok tt, w')
      | (Raise e, w') =>
          let w'' := fs_do (OpUnlink (temp_path destination)) w' in
          if (attempt =? retries)%nat then (Raise e, w'')
          else download_attempts rest retries url destination s w''
      end
  end.

Definition download_image (url destination : string) (s : session)
    (retries : nat) (w : world) : result unit * world :=
  download_attempts (seq 1 retries) retries url destination s w.

(** [retries: int = 3] *)
Definition default_retries : nat := 3.

(** ** Filename resolver *)

Definition conflict_cache (candidate url : string) (image_cache : dict) : bool :=
  match dict_get candidate image_cache with
  | Some owner => bool_decide (owner ≠ url)
  | None => false
  end.

Definition conflict_reserved (candidate : string) (image_cache : dict)
    (reserved : gset string) : bool :=
  bool_decide (candidate ∈ reserved) && negb (dict_mem candidate image_cache).

Definition numbered (base ext : string) (counter : nat) : string :=
  base +:+ "_" +:+ pretty counter +:+ ext.

(** The [while True] loop of [choose_filename], with the number of
    iterations it may still take; [None] when they are used up. *)
Fixpoint choose_filename_loop (fuel : nat) (base ext url : string)
    (image_cache : dict) (reserved : gset string)
    (candidate : string) (counter : nat) : option string :=
  match fuel with
  | O => None
  | S fuel' =>
      if conflict_cache candidate url image_cache
         || conflict_reserved candidate image_cache reserved
      then choose_filename_loop fuel' base ext url image_cache reserved
             (numbered base ext counter) (S counter)
      else Some candidate
  end.

(** One iteration more than there are names in the cache and the reserved
    set, which is always enough. *)
Definition choose_filename_fuel (image_cache : dict) (reserved : gset string) : nat :=
  S (length image_cache + size reserved).

Definition choose_filename (base ext url : string) (image_cache : dict)
    (reserved : gset string) : option string :=
  choose_filename_loop (choose_filename_fuel image_cache reserved)
    base ext url image_cache reserved (base +:+ ext) 2.

(** ** Cache reconciler *)

Record poster : Type := Poster {
  title : string;
  images : list string
}.

Inductive outcome : Type :=
| Skipped
| Renamed (existing_name : string)
| Downloaded
| Failed (e : exn).

(** What the loop decided for one URL; kept as a journal next to the
    counters (the source prints the renames, downloads and failures). *)
Record decision : Type := Decision {
  d_url : string;
  d_target : string;
  d_outcome : outcome
}.

Record state : Type := State {
  image_cache : dict;
  url_to_filename : gmap string string;
  reserved_names : gset string;
  downloaded : nat;
  skipped : nat;
  renamed : nat;
  journal : list decision
}.

Definition ASSETS_DIR : string := "assets".
Definition IMAGE_CACHE_PATH : string := "cache/image_cache.json".
Definition META_CACHE_PATH : string := "cache/meta_cache.json".

(** [ASSETS_DIR / name] *)
Definition asset (name : string) : string := ASSETS_DIR +:+ "/" +:+ name.

Definition note (url target : string) (o : outcome) (st : state) : list decision :=
  journal st ++ [Decision url target o].

(** Lines 173 to 184: fetch, then install the name on success. *)
Definition fetch_and_install (url target : string) (st : state) (w : world)
  : result state * world :=
  match download_image url (asset target) build_session default_retries w with
  | (Raise e, w') =>
      (Ok (State (image_cache st) (url_to_filename st) (reserved_names st)
             (downloaded st) (skipped st) (renamed st)
             (note url target (Failed e) st)), w')
  | (Ok tt, w') =>
      (Ok (State (dict_set target url (image_cache st))
             (<[url := target]> (url_to_filename st))
             (reserved_names st ∪ {[target]})
             (S (downloaded st)) (skipped st) (renamed st)
             (note url target Downloaded st)), w')
  end.

(** Lines 153 to 171: the URL is stored under another name. *)
Definition rename_or_drop (url target existing_name : string) (st : state)
    (w : world) : result state * world :=
  if path_exists (asset existing_name) w then
    let w' := fs_do (OpReplace (asset existing_name) (asset target)) w in
    match dict_del existing_name (image_cache st) with
    | None => (Raise (KeyError existing_name), w')
    | Some cache' =>
        (Ok (State (dict_set target url cache')
               (<[url := target]> (url_to_filename st))
               ((reserved_names st ∖ {[existing_name]}) ∪ {[target]})
               (downloaded st) (skipped st) (S (renamed st))
               (note url target (Renamed existing_name) st)), w')
    end
  else
    match dict_del existing_name (image_cache st) with
    | None => (Raise (KeyError existing_name), w)
    | Some cache' =>
        fetch_and_install url target
          (State cache' (url_to_filename st)
             (reserved_names st ∖ {[existing_name]})
             (downloaded st) (skipped st) (renamed st) (journal st)) w
    end.

(** The body of the inner loop, lines 137 to 184. *)
Definition process_url (poster_title : string) (total idx : nat) (url : string)
    (st : state) (w : world) : result state * world :=
  match url with
  | EmptyString => (Ok st, w)
  | _ =>
      let '(base, ext) := filename_from_title poster_title url idx total in
      match choose_filename base ext url (image_cache st) (reserved_names st) with
      | None => (Raise LoopFuelExhausted, w)
      | Some target_filename =>
          if bool_decide (dict_get target_filename (image_cache st) = Some url)
             && path_exists (asset target_filename) w
          then
            (Ok (State (image_cache st) (url_to_filename st) (reserved_names st)
                   (downloaded st) (S (skipped st)) (renamed st)
                   (note url target_filename Skipped st)), w)
          else
            match url_to_filename st !! url with
            | Some existing_name =>
                if bool_decide (existing_name ≠ EmptyString)
                   && bool_decide (existing_name ≠ target_filename)
                then rename_or_drop url target_filename existing_name st w
                else fetch_and_install url target_filename st w
            | None => fetch_and_install url target_filename st w
            end
      end
  end.

(** [for idx, url in enumerate(images)] *)
Fixpoint process_images (poster_title : string) (total idx : nat)
    (urls : list string) (st : state) (w : world) : result state * world :=
  match urls with
  | [] => (Ok st, w)
  | url :: rest =>
      match process_url poster_title total idx url st w with
      | (Ok st', w') => process_images poster_title total (S idx) rest st' w'
      | (Raise e, w') => (Raise e, w')
      end
  end.

(** [for poster in posters] *)
Fixpoint process_posters (posters : list poster) (st : state) (w : world)
  : result state * world :=
  match posters with
  | [] => (Ok st, w)
  | p :: rest =>
      match process_images (title p) (length (images p)) 0 (images p) st w with
      | (Ok st', w') => process_posters rest st' w'
      | (Raise e, w') => (Raise e, w')
      end
  end.

(** [{url: name for name, url in image_cache.items()}] *)
Definition invert (image_cache : dict) : gmap string string :=
  foldl (λ m kv, <[kv.2 := kv.1]> m) ∅ image_cache.

Definition initial_state (image_cache : dict) : state :=
  State image_cache (invert image_cache) (list_to_set (dict_keys image_cache))
    0 0 0 [].

(** ** Persisting the cache *)

Definition hex_digit (n : nat) : ascii :=
  if (n <? 10)%nat then ascii_of_nat (48 + n) else ascii_of_nat (87 + n).

(** One character inside a JSON string, as [json.dumps(...,
    ensure_ascii=False)] prints it. *)
Definition json_escape_char (c : ascii) : string :=
  let n := nat_of_ascii c in
  if is_char dquote c then String "\" (String dquote EmptyString)
  else if is_char "\" c then "\\"
  else if (n =? 10)%nat then "\n"
  else if (n =? 13)%nat then "\r"
  else if (n =? 9)%nat then "\t"
  else if (n =? 8)%nat then "\b"
  else if (n =? 12)%nat then "\f"
  else if (n <? 32)%nat then
    "\u00" +:+ String (hex_digit (n / 16)) (String (hex_digit (n mod 16)) EmptyString)
  else String c EmptyString.

Fixpoint json_escape (s : string) : string :=
  match s with
  | EmptyString => EmptyString
  | String c s' => json_escape_char c +:+ json_escape s'
  end.

Definition json_string (s : string) : string :=
  String dquote (json_escape s) +:+ String dquote EmptyString.

Definition json_member (kv : string * string) : string :=
  "  " +:+ json_string kv.1 +:+ ": " +:+ json_string kv.2.

Fixpoint json_members (d : dict) : string :=
  match d with
  | [] => EmptyString
  | [kv] => json_member kv
  | kv :: d' => json_member kv +:+ String "," (String newline (json_members d'))
  end.

(** [json.dumps(payload, ensure_ascii=False, indent=2)] of a flat dict. *)
Definition json_dumps (payload : dict) : string :=
  match payload with
  | [] => "{}"
  | _ => String "{" (String newline (json_members payload))
         +:+ String newline (String "}" EmptyString)
  end.

(** [path.write_text(data)]: the file is opened for writing, which
    truncates it, and the text is written into it afterwards. *)
Definition write_text (path data : string) : list fs_op :=
  [OpOpenW path; OpWrite path data].

Definition save_json (path : string) (payload : dict) (w : world) : world :=
  foldl (λ w op, fs_do op w) w (write_text path (json_dumps payload)).

(** [load_json]: the empty dict for a missing, blank or unparsable file.
    [loads] stands for [json.loads], with [None] for its
    [JSONDecodeError]. *)
Definition load_json (loads : string → option dict) (path : string) (w : world)
  : dict :=
  match files w !! path with
  | None => []
  | Some content =>
      match strip is_space content with
      | EmptyString => []
      | _ => default [] (loads content)
      end
  end.

Record summary : Type := Summary {
  sum_downloaded : nat;
  sum_renamed : nat;
  sum_skipped : nat;
  sum_cached : nat
}.

(** [main].  [meta] is the parsed manifest, [None] when the manifest file
    does not exist; [loaded] is what [load_json(IMAGE_CACHE_PATH)]
    returned.  The summary line that ends the run is the value returned. *)
Definition main (meta : option (list poster)) (loaded : dict) (w : world)
  : result summary * world :=
  match meta with
  | None => (Raise (FileNotFoundError META_CACHE_PATH), w)
  | Some posters =>
      match process_posters posters (initial_state loaded) w with
      | (Raise e, w') => (Raise e, w')
      | (Ok st, w') =>
          (Ok (Summary (downloaded st) (renamed st) (skipped st)
                 (length (image_cache st))),
           save_json IMAGE_CACHE_PATH (image_cache st) w')
      end
  end.

(** The flat sequence of loop iterations of a manifest: title, number of
    images of the poster, position, URL. *)
Record item : Type := Item {
  i_title : string;
  i_total : nat;
  i_idx : nat;
  i_url : string
}.

Definition poster_items (p : poster) : list item :=
  imap (λ idx url, Item (title p) (length (images p)) idx url) (images p).

Definition work_items (posters : list poster) : list item :=
  posters ≫= poster_items.

Definition step (it : item) (st : state) (w : world) : result state * world :=
  process_url (i_title it) (i_total it) (i_idx it) (i_url it) st w.

Fixpoint run_items (its : list item) (st : state) (w : world)
  : result state * world :=
  match its with
  | [] => (Ok st, w)
  | it :: rest =>
      match step it st w with
      | (Ok st', w') => run_items rest st' w'
      | (Raise e, w') => (Raise e, w')
      end
  end.

(** Servers used in the examples. *)
Definition always_ok (body : list string) : string → nat → reply :=
  λ _ _, Reply 200 body true.
Definition always_status (status : nat) : string → nat → reply :=
  λ _ _, Reply status [] true.
Definition empty_world (server : string → nat → reply) : world :=
  World ∅ server 0 [].

(** ** Predicates of the specification *)

(** A candidate conflicts when either test of the resolver's loop fires. *)
Definition has_conflict (candidate url : string) (cache : dict)
    (reserved : gset string) : bool :=
  conflict_cache candidate url cache || conflict_reserved candidate cache reserved.

(** [w'] comes from [w] by requests and by file operations on the one path
    [temp]. *)
Definition touches_only (temp : string) (w w' : world) : Prop :=
  net w' = net w
  ∧ sent w ≤ sent w'
  ∧ ∃ ops, history w' = history w ++ ops
           ∧ files w' = replay ops (files w)
           ∧ Forall (λ op, op_targets op = [temp]) ops.

(** The text of a body: its chunks in order. *)
Definition body_text (chunks : list string) : string :=
  foldr String.append EmptyString chunks.

(** [w'] comes from [w] by a complete download of [url]: operations on the
    temporary path only, which leave the full body of a reply there, and
    then the one rename onto the destination. *)
Definition fetched (url destination : string) (w w' : world) : Prop :=
  ∃ w3 t status chunks,
    touches_only (temp_path destination) w w3
    ∧ w' = fs_do (OpReplace (temp_path destination) destination) w3
    ∧ files w3 !! temp_path destination = Some (body_text chunks)
    ∧ net w url t = Reply status chunks true
    ∧ is_error_status status = false.

(** The reserved set and the keys of the cache are the same names. *)
Definition agree (st : state) : Prop :=
  ∀ name, name ∈ reserved_names st ↔ name ∈ dict_keys (image_cache st).

(** Every binding of [cache'] was already in [cache], or is a name that
    was free in [cache] and is now bound to [url]. *)
Definition bindings_kept (url : string) (cache cache' : dict) : Prop :=
  ∀ f u, dict_get f cache' = Some u →
         dict_get f cache = Some u ∨ (dict_get f cache = None ∧ u = url).

(** The four shapes the cache can have after one iteration for [url] with
    resolved name [target]: untouched (skip, failed fetch), [target]
    installed (fetch), another name dropped (stale entry, failed fetch),
    another name dropped and [target] installed (rename, or stale entry
    and fetch). *)
Inductive cache_change (url target : string) (cache : dict) : dict → Prop :=
| change_none : cache_change url target cache cache
| change_install :
    cache_change url target cache (dict_set target url cache)
| change_drop existing_name :
    existing_name ≠ target →
    cache_change url target cache (dict_remove existing_name cache)
| change_move existing_name :
    existing_name ≠ target →
    cache_change url target cache
      (dict_set target url (dict_remove existing_name cache)).

(** The decision installed its name: the URL was skipped, renamed or
    downloaded, its fetch did not fail. *)
Definition installed (d : decision) : Prop :=
  ∀ e, d_outcome d ≠ Failed e.

(** In a journal, a decision that installed its name is followed only by
    decisions for other URLs under other names. *)
Definition installed_names_stay_apart (j : list decision) : Prop :=
  ∀ i k d1 d2,
    j !! i = Some d1 → j !! k = Some d2 → i < k → installed d1 →
    d_url d1 ≠ d_url d2 ∧ d_target d1 ≠ d_target d2.

(** What the loop maintains when no non-empty URL repeats: [rest] are the
    URLs still to come. *)
Definition apart_invariant (st : state) (rest : list string) : Prop :=
  NoDup (dict_keys (image_cache st))
  ∧ (∀ u n, u ≠ EmptyString → u ∈ rest → url_to_filename st !! u = Some n →
            dict_get n (image_cache st) = Some u)
  ∧ (∀ d, d ∈ journal st → d_url d ≠ EmptyString ∧ d_url d ∉ rest)
  ∧ (∀ d, d ∈ journal st → installed d →
          dict_get (d_target d) (image_cache st) = Some (d_url d))
  ∧ installed_names_stay_apart (journal st).

(** The names resolved in a run are pairwise distinct across URLs. *)
Definition resolved_names_differ (j : list decision) : Prop :=
  ∀ d1 d2, d1 ∈ j → d2 ∈ j → d_url d1 ≠ d_url d2 → d_target d1 ≠ d_target d2.







(** ** Shapes of names *)

(** A character that is neither whitespace nor of the class
    [sanitize_title] replaces. *)
Definition safe_char (c : ascii) : bool :=
  negb (is_space c) && negb (is_illegal c).

Definition starts_with (P : ascii → bool) (s : string) : bool :=
  match s with
  | EmptyString => false
  | String c _ => P c
  end.

Fixpoint ends_with (P : ascii → bool) (s : string) : bool :=
  match s with
  | EmptyString => false
  | String c EmptyString => P c
  | String _ s' => ends_with P s'
  end.

(** No two characters of the class [P] follow each other. *)
Fixpoint no_adjacent (P : ascii → bool) (s : string) : bool :=
  match s with
  | EmptyString => true
  | String a s' => negb (P a && starts_with P s') && no_adjacent P s'
  end.

(** What [sanitize_title] returns: a non-empty string of safe characters
    in which underscores stand alone and are neither first nor last. *)
Definition clean_name (s : string) : Prop :=
  s ≠ EmptyString
  ∧ str_forall safe_char s = true
  ∧ starts_with (is_char "_") s = false
  ∧ ends_with (is_char "_") s = false
  ∧ no_adjacent (is_char "_") s = true.

(** A character [sanitize_title] turns into a separator or strips: white
    space, one of the replaced class, or the underscore itself. *)
Definition separator_char (c : ascii) : bool :=
  is_space c || is_illegal c || is_char "_" c.

Definition not_slash (c : ascii) : bool := negb (is_char "/" c).

(** ** Tallies of the journal *)




(** ** [src/get_category.py]: the category summary

    [summarize_categories] and the payload [main] hands to [save_summary].
    A manifest entry is read through its ["category"] value only; reading
    the manifest file and printing the payload as JSON are left out. *)

Module get_category.

Definition META_CACHE_PATH : string := "cache/meta_cache.json".
Definition FALLBACK_CATEGORY : string := "Uncategorized".

(** A poster of the manifest: the value under ["category"], [None] when
    the key is missing or holds [null]. *)
Record entry : Type := Entry { category : option string }.

(** [(poster.get("category") or FALLBACK_CATEGORY).strip()] *)
Definition category_name (p : entry) : string :=
  strip is_space (str_or (default EmptyString (category p)) FALLBACK_CATEGORY).

(** A [Counter], in insertion order. *)
Definition counter : Type := list (string * nat).

(** [counter[k]]: a missing key counts zero. *)
Fixpoint counter_get (k : string) (c : counter) : nat :=
  match c with
  | [] => 0
  | (k', n) :: c' => if bool_decide (k' = k) then n else counter_get k c'
  end.

(** [counter[k] += 1] *)
Fixpoint counter_incr (k : string) (c : counter) : counter :=
  match c with
  | [] => [(k, 1)]
  | (k', n) :: c' =>
      if bool_decide (k' = k) then (k', S n) :: c'
      else (k', n) :: counter_incr k c'
  end.

Definition count_categories (posters : list entry) : counter :=
  foldl (λ c p, counter_incr (category_name p) c) [] posters.

(** The sort key [(-item[1], item[0])] and Python's order on such pairs:
    the first components decide unless they are equal; strings compare by
    code points. *)
Definition sort_key (item : string * nat) : Z * string :=
  ((- Z.of_nat item.2)%Z, item.1).

Definition tuple_leb (a b : Z * string) : bool :=
  (a.1 <? b.1)%Z || ((a.1 =? b.1)%Z && String.leb a.2 b.2).

Definition key_le (a b : string * nat) : Prop :=
  tuple_leb (sort_key a) (sort_key b) = true.

#[global] Instance key_le_dec (a b : string * nat) : base.Decision (key_le a b).
Proof. unfold key_le. apply _. Defined.

(** One [{"name": ..., "count": ...}] of the summary. *)
Record row : Type := Row { name : string; count : nat }.

Definition to_row (item : string * nat) : row := Row item.1 item.2.

(** [meta] is [None] when the manifest has no ["posters"] key.  The keys
    of a counter are pairwise distinct, so no two items have the same sort
    key and [sorted] has one possible result, whatever the algorithm. *)
Definition summarize_categories (meta : option (list entry)) : list row :=
  let posters := default [] meta in
  to_row <$> merge_sort key_le (count_categories posters).

Record payload : Type := Payload {
  source : string;
  total_items : nat;
  total_categories : nat;
  categories : list row
}.

(** The dictionary [save_summary] prints. *)
Definition summary_payload (summary : list row) (total : nat) : payload :=
  Payload META_CACHE_PATH total (length summary) summary.

(** [main] up to the payload written to the category cache.  [meta_file]
    is the parsed manifest, [None] when the file does not exist. *)
Definition main (meta_file : option (option (list entry))) : result payload :=
  match meta_file with
  | None => Raise (FileNotFoundError META_CACHE_PATH)
  | Some meta =>
      Ok (summary_payload (summarize_categories meta) (length (default [] meta)))
  end.

(** How many posters fall under a name. *)
Definition occurrences (n : string) (posters : list entry) : nat :=
  length (filter (λ p, category_name p = n) posters).

(** The order of the summary: larger counts first, equal counts by name. *)
Definition row_before (a b : row) : Prop :=
  count b < count a ∨ (count a = count b ∧ String.ltb (name a) (name b) = true).

End get_category.

(** ** [src/get_meta.py]: the link field parser

    [normalize_wiki_value] and [parse_link_field].  [extract_posters]
    works on the node tree of an external wikitext parser and
    [fetch_wikitext] on the network; neither is embedded. *)

Module get_meta.

Fixpoint str_exists (P : ascii → bool) (s : string) : bool :=
  match s with
  | EmptyString => false
  | String c s' => P c || str_exists P s'
  end.

(** [s.replace(old, new)] for a non-empty [old]: the occurrences are taken
    from the left and do not overlap.  [skip] is the number of characters
    of the occurrence just replaced that are still to be passed over. *)
Fixpoint replace_from (old new : string) (skip : nat) (s : string) : string :=
  match s with
  | EmptyString => EmptyString
  | String c s' =>
      match skip with
      | S k => replace_from old new k s'
      | O =>
          if String.prefix old s
          then new +:+ replace_from old new (String.length old - 1) s'
          else String c (replace_from old new 0 s')
      end
  end.

Definition replace (old new s : string) : string := replace_from old new 0 s.

(** [text.replace("{{=}}", "=").replace("{{!}}", "|").strip()] *)
Definition normalize_wiki_value (value : string) : string :=
  strip is_space (replace "{{!}}" "|" (replace "{{=}}" "=" value)).

Definition is_bracket (c : ascii) : bool := is_char "[" c || is_char "]" c.

(** [s.split(None, 1)]: leading whitespace is skipped, the first word is
    cut off, and what follows the whitespace after it, if anything, is the
    second item. *)
Definition split_whitespace_once (s : string) : list string :=
  match lstrip is_space s with
  | EmptyString => []
  | from_word =>
      let '(word, rest) := break_on is_space from_word in
      match lstrip is_space rest with
      | EmptyString => [word]
      | remainder => [word; remainder]
      end
  end.

(** [ValueError]: the unpacking [url, label = ...] got [got] values. *)
Inductive unpack_error : Type := ValueError (got : nat).

Definition parse_link_field (raw_link : string)
  : string * string + unpack_error :=
  let cleaned := strip is_bracket (normalize_wiki_value raw_link) in
  match cleaned with
  | EmptyString => inl (EmptyString, EmptyString)
  | _ =>
      if str_exists (is_char " ") cleaned then
        match split_whitespace_once cleaned with
        | [url; label] => inl (url, label)
        | parts => inr (ValueError (length parts))
        end
      else inl (cleaned, EmptyString)
  end.

(** Characters a link field can carry unchanged through the parser. *)
Definition plain_char (c : ascii) : bool :=
  negb (is_space c) && negb (is_bracket c) && negb (is_char "{" c).

End get_meta.

(** * Properties *)

(** ** Strings *)

Lemma app_cons (c : ascii) (s e : string) :
  String c s +:+ e = String c (s +:+ e).
Proof. reflexivity. Qed.

Lemma app_nil (e : string) : EmptyString +:+ e = e.
Proof. reflexivity. Qed.

Lemma length_app (s1 s2 : string) :
  String.length (s1 +:+ s2) = String.length s1 + String.length s2.
Proof.
  induction s1 as [|c s1 IH]; [done|].
  rewrite app_cons. simpl. by rewrite IH.
Qed.

Lemma app_inv_tail (s1 s2 e : string) : s1 +:+ e = s2 +:+ e → s1 = s2.
Proof.
  revert s2. induction s1 as [|c s1 IH]; intros [|c' s2] H.
  - done.
  - apply (f_equal String.length) in H. rewrite !length_app in H. simpl in H. lia.
  - apply (f_equal String.length) in H. rewrite !length_app in H. simpl in H. lia.
  - rewrite !app_cons in H. injection H as -> H. f_equal. by apply IH.
Qed.

Lemma numbered_inj (base ext : string) (j k : nat) :
  numbered base ext j = numbered base ext k → j = k.
Proof.
  unfold numbered. intros H.
  apply (inj (String.append base)) in H.
  apply (inj (String.append "_")) in H.
  apply app_inv_tail in H. by apply (inj pretty) in H.
Qed.

Lemma numbered_ne_plain (base ext : string) (k : nat) :
  numbered base ext k ≠ base +:+ ext.
Proof.
  unfold numbered. intros H.
  apply (inj (String.append base)) in H.
  apply (f_equal String.length) in H.
  rewrite !length_app in H. simpl in H. lia.
Qed.

(** ** The dictionary *)

Lemma dict_get_set_eq (k v : string) (d : dict) :
  dict_get k (dict_set k v d) = Some v.
Proof.
  induction d as [|[k' v'] d IH]; simpl.
  - by rewrite decide_True.
  - destruct (decide (k' = k)); simpl.
    + by rewrite decide_True.
    + by rewrite decide_False.
Qed.

Lemma dict_get_set_ne (k k' v : string) (d : dict) :
  k ≠ k' → dict_get k' (dict_set k v d) = dict_get k' d.
Proof.
  intros Hne. induction d as [|[k0 v0] d IH]; simpl.
  - by rewrite decide_False.
  - destruct (decide (k0 = k)) as [->|]; simpl.
    + by rewrite !decide_False.
    + by rewrite IH.
Qed.

Lemma dict_get_remove_eq (k : string) (d : dict) :
  dict_get k (dict_remove k d) = None.
Proof.
  induction d as [|[k0 v0] d IH]; simpl; [done|].
  destruct (decide (k0 = k)); simpl; [done|]. by rewrite decide_False.
Qed.

Lemma dict_get_remove_ne (k k' : string) (d : dict) :
  k ≠ k' → dict_get k' (dict_remove k d) = dict_get k' d.
Proof.
  intros Hne. induction d as [|[k0 v0] d IH]; simpl; [done|].
  destruct (decide (k0 = k)) as [->|]; simpl.
  - by rewrite decide_False.
  - by rewrite IH.
Qed.

Lemma dict_get_keys (k : string) (d : dict) :
  is_Some (dict_get k d) ↔ k ∈ dict_keys d.
Proof.
  unfold dict_keys. induction d as [|[k0 v0] d IH]; simpl.
  - split; [by intros [? ?] | by intros ?%elem_of_nil].
  - rewrite elem_of_cons. destruct (decide (k0 = k)) as [->|].
    + split; [by left | by eauto].
    + rewrite IH. split; [by right | by intros [?|?]].
Qed.

Lemma dict_mem_keys (k : string) (d : dict) :
  dict_mem k d = true ↔ k ∈ dict_keys d.
Proof.
  rewrite <- dict_get_keys. unfold dict_mem.
  destruct (dict_get k d).
  - split; [by eauto | done].
  - split; [done | by intros [? ?]].
Qed.

Lemma dict_del_Some (k : string) (d d' : dict) :
  dict_del k d = Some d' → d' = dict_remove k d ∧ is_Some (dict_get k d).
Proof.
  unfold dict_del, dict_mem. destruct (dict_get k d); [|done].
  intros [= <-]. eauto.
Qed.

Lemma dict_keys_set (k k' v : string) (d : dict) :
  k' ∈ dict_keys (dict_set k v d) ↔ k' = k ∨ k' ∈ dict_keys d.
Proof.
  rewrite <- !dict_get_keys. destruct (decide (k = k')) as [->|Hne].
  - rewrite dict_get_set_eq. split; [by left | by eauto].
  - rewrite dict_get_set_ne by done. split; [by right | by intros [->|?]].
Qed.

Lemma dict_keys_remove (k k' : string) (d : dict) :
  k' ∈ dict_keys (dict_remove k d) ↔ k' ≠ k ∧ k' ∈ dict_keys d.
Proof.
  rewrite <- !dict_get_keys. destruct (decide (k = k')) as [->|Hne].
  - rewrite dict_get_remove_eq. split; [by intros [? ?] | by intros [? _]].
  - rewrite dict_get_remove_ne by done.
    split; [intros ?; split; [congruence | done] | by intros [_ ?]].
Qed.

(** Keys stay unique, as in a Python dict. *)
Lemma dict_set_NoDup (k v : string) (d : dict) :
  NoDup (dict_keys d) → NoDup (dict_keys (dict_set k v d)).
Proof.
  unfold dict_keys. induction d as [|[k0 v0] d IH]; simpl; intros Hnd.
  - apply NoDup_singleton.
  - apply NoDup_cons in Hnd as [Hnot Hnd].
    destruct (decide (k0 = k)) as [->|Hne]; simpl.
    + by apply NoDup_cons.
    + apply NoDup_cons. split; [|by apply IH].
      intros Hin. apply (dict_keys_set k k0 v d) in Hin as [?|?]; done.
Qed.

Lemma dict_remove_NoDup (k : string) (d : dict) :
  NoDup (dict_keys d) → NoDup (dict_keys (dict_remove k d)).
Proof.
  unfold dict_keys. induction d as [|[k0 v0] d IH]; simpl; intros Hnd; [done|].
  apply NoDup_cons in Hnd as [Hnot Hnd].
  destruct (decide (k0 = k)) as [->|Hne]; simpl; [by apply IH|].
  apply NoDup_cons. split; [|by apply IH].
  intros Hin. by apply (dict_keys_remove k k0 d) in Hin as [_ ?].
Qed.

(** ** The resolver terminates and returns a name without conflict *)

(** Only the names of the cache and of the reserved set can conflict. *)
Lemma has_conflict_claimed (candidate url : string) (cache : dict)
    (reserved : gset string) :
  has_conflict candidate url cache reserved = true →
  candidate ∈ (list_to_set (dict_keys cache) ∪ reserved : gset string).
Proof.
  unfold has_conflict, conflict_cache, conflict_reserved.
  intros [H|H]%orb_true_iff.
  - apply elem_of_union_l, elem_of_list_to_set, dict_get_keys.
    destruct (dict_get candidate cache); [by eauto | done].
  - apply andb_true_iff in H as [H _].
    apply elem_of_union_r. by apply bool_decide_eq_true in H.
Qed.

Lemma size_claimed (cache : dict) (reserved : gset string) :
  size (list_to_set (dict_keys cache) ∪ reserved : gset string)
  ≤ length cache + size reserved.
Proof.
  rewrite size_union_alt.
  assert (size (list_to_set (dict_keys cache) : gset string) ≤ length cache) as H1.
  { unfold dict_keys. induction cache as [|[k v] cache IH].
    - rewrite fmap_nil, list_to_set_nil, size_empty. done.
    - rewrite fmap_cons, list_to_set_cons, size_union_alt, size_singleton.
      assert (size ((list_to_set cache.*1 : gset string) ∖ {[k]})
              ≤ size (list_to_set cache.*1 : gset string)) as H2
        by (apply subseteq_size; intros x [Hx _]%elem_of_difference; exact Hx).
      simpl. lia. }
  assert (size (reserved ∖ (list_to_set (dict_keys cache) : gset string))
          ≤ size reserved) as H2
    by (apply subseteq_size; intros x [Hx _]%elem_of_difference; exact Hx).
  lia.
Qed.

(** The loop, started at [candidate] with the numbered names from [counter]
    on still to come, stops as soon as the fuel exceeds the size of a set
    holding every conflicting name it can still meet. *)
Lemma choose_filename_loop_stops (base ext url : string) (cache : dict)
    (reserved : gset string) (fuel : nat) :
  ∀ (claimed : gset string) (candidate : string) (counter : nat),
    (has_conflict candidate url cache reserved = true → candidate ∈ claimed) →
    (∀ k, counter ≤ k →
          has_conflict (numbered base ext k) url cache reserved = true →
          numbered base ext k ∈ claimed) →
    (∀ k, counter ≤ k → numbered base ext k ≠ candidate) →
    size claimed < fuel →
    ∃ name,
      choose_filename_loop fuel base ext url cache reserved candidate counter
      = Some name
      ∧ has_conflict name url cache reserved = false.
Proof.
  induction fuel as [|fuel IH]; intros claimed candidate counter Hc Hk Hne Hsz.
  - lia.
  - simpl. fold (has_conflict candidate url cache reserved).
    destruct (has_conflict candidate url cache reserved) eqn:Hconf.
    + apply (IH (claimed ∖ {[candidate]})).
      * intros Hnext. apply elem_of_difference. split.
        -- by apply Hk.
        -- rewrite elem_of_singleton. by apply Hne.
      * intros k Hle Hbad. apply elem_of_difference. split.
        -- apply Hk; [lia | done].
        -- rewrite elem_of_singleton. apply Hne. lia.
      * intros k Hle Heq. apply numbered_inj in Heq. lia.
      * rewrite size_difference, size_singleton.
        -- specialize (Hc eq_refl).
           assert (size claimed ≠ 0); [|lia].
           intros H0. apply size_empty_inv in H0. set_solver.
        -- apply singleton_subseteq_l. by apply Hc.
    + by exists candidate.
Qed.

Lemma choose_filename_loop_more_fuel (base ext url : string) (cache : dict)
    (reserved : gset string) (fuel fuel' : nat) (candidate name : string)
    (counter : nat) :
  choose_filename_loop fuel base ext url cache reserved candidate counter
  = Some name →
  fuel ≤ fuel' →
  choose_filename_loop fuel' base ext url cache reserved candidate counter
  = Some name.
Proof.
  revert fuel' candidate counter.
  induction fuel as [|fuel IH]; intros fuel' candidate counter H Hle; [done|].
  destruct fuel' as [|fuel']; [lia|]. simpl in *.
  destruct (conflict_cache candidate url cache
            || conflict_reserved candidate cache reserved); [|done].
  apply IH; [done | lia].
Qed.

(** The resolver returns, whatever it is given. *)
Lemma choose_filename_returns (base ext url : string) (cache : dict)
    (reserved : gset string) :
  ∃ name,
    choose_filename base ext url cache reserved = Some name
    ∧ conflict_cache name url cache = false
    ∧ conflict_reserved name cache reserved = false
    ∧ ∀ fuel, choose_filename_fuel cache reserved ≤ fuel →
        choose_filename_loop fuel base ext url cache reserved (base +:+ ext) 2
        = Some name.
Proof.
  destruct (choose_filename_loop_stops base ext url cache reserved
              (choose_filename_fuel cache reserved)
              (list_to_set (dict_keys cache) ∪ reserved) (base +:+ ext) 2)
    as (name & Hname & Hfree).
  - apply has_conflict_claimed.
  - intros k _. apply has_conflict_claimed.
  - intros k _. apply numbered_ne_plain.
  - unfold choose_filename_fuel. pose proof (size_claimed cache reserved). lia.
  - exists name. apply orb_false_iff in Hfree as [Hc Hr].
    split_and!; try done.
    intros fuel Hle. by eapply choose_filename_loop_more_fuel.
Qed.

(** C10.  For every base, extension, URL, cache and reserved set,
    [choose_filename] returns: the loop stops within the iterations the
    definition grants it (and running it longer gives the same name), and
    the name returned has neither a cache conflict, that is it is not
    bound in the cache to a different URL, nor a reserved conflict, that
    is it is not reserved while absent from the cache. *)
Theorem choose_filename_total (base ext url : string) (cache : dict)
    (reserved : gset string) :
  ∃ name,
    choose_filename base ext url cache reserved = Some name
    ∧ (∀ owner, dict_get name cache = Some owner → owner = url)
    ∧ ¬ (name ∈ reserved ∧ dict_get name cache = None)
    ∧ conflict_cache name url cache = false
    ∧ conflict_reserved name cache reserved = false
    ∧ ∀ fuel, choose_filename_fuel cache reserved ≤ fuel →
        choose_filename_loop fuel base ext url cache reserved (base +:+ ext) 2
        = Some name.
Proof.
  destruct (choose_filename_returns base ext url cache reserved)
    as (name & Hname & Hc & Hr & Hfuel).
  exists name. split_and!; try done.
  - intros owner Hget. unfold conflict_cache in Hc. rewrite Hget in Hc.
    apply bool_decide_eq_false in Hc. by apply dec_stable in Hc.
  - intros [Hin Hnone]. unfold conflict_reserved, dict_mem in Hr.
    rewrite Hnone, bool_decide_eq_true_2 in Hr by done. done.
Qed.

(** ** The file system under the fetcher *)

Lemma app_assoc_str (a b c : string) : (a +:+ b) +:+ c = a +:+ (b +:+ c).
Proof.
  induction a as [|x a IH]; [done|]. rewrite !app_cons. by rewrite IH.
Qed.

Lemma app_nil_r_str (a : string) : a +:+ EmptyString = a.
Proof. induction a as [|x a IH]; [done|]. rewrite app_cons. by rewrite IH. Qed.

Lemma temp_path_ne (destination : string) : temp_path destination ≠ destination.
Proof.
  unfold temp_path. intros H. apply (f_equal String.length) in H.
  rewrite length_app in H. simpl in H. lia.
Qed.

Lemma replay_app (ops1 ops2 : list fs_op) (fs : gmap string string) :
  replay (ops1 ++ ops2) fs = replay ops2 (replay ops1 fs).
Proof. unfold replay. by rewrite foldl_app. Qed.

Lemma exec_op_untouched (op : fs_op) (fs : gmap string string) (p : string) :
  p ∉ op_targets op → exec_op op fs !! p = fs !! p.
Proof.
  destruct op as [q|q data|q|src dst]; simpl; intros Hp.
  - apply lookup_insert_ne. set_solver.
  - apply lookup_alter_ne. set_solver.
  - apply lookup_delete_ne. set_solver.
  - destruct (fs !! src); [|done].
    rewrite lookup_insert_ne by set_solver.
    apply lookup_delete_ne. set_solver.
Qed.

(** A path that no operation of a sequence targets keeps its content at
    every instant of the sequence. *)
Lemma replay_untouched (ops : list fs_op) (fs : gmap string string) (p : string) :
  Forall (λ op, p ∉ op_targets op) ops → replay ops fs !! p = fs !! p.
Proof.
  revert fs. induction ops as [|op ops IH]; intros fs Hall; [done|].
  apply Forall_cons in Hall as [Hop Hall]. unfold replay in *. simpl.
  rewrite IH by done. by apply exec_op_untouched.
Qed.

Lemma touches_only_refl (temp : string) (w : world) : touches_only temp w w.
Proof.
  split_and!; [done | done |]. exists []. by rewrite app_nil_r.
Qed.

Lemma touches_only_trans (temp : string) (w1 w2 w3 : world) :
  touches_only temp w1 w2 → touches_only temp w2 w3 → touches_only temp w1 w3.
Proof.
  intros (Hn1 & Hs1 & ops1 & Hh1 & Hf1 & Ha1) (Hn2 & Hs2 & ops2 & Hh2 & Hf2 & Ha2).
  split_and!; [congruence | lia |]. exists (ops1 ++ ops2).
  split_and!.
  - rewrite Hh2, Hh1. by rewrite app_assoc.
  - rewrite Hf2, Hf1. by rewrite replay_app.
  - by apply Forall_app.
Qed.

Lemma touches_only_fs_do (temp : string) (op : fs_op) (w : world) :
  op_targets op = [temp] → touches_only temp w (fs_do op w).
Proof.
  intros Hop. split_and!; [done | done |]. exists [op].
  split_and!; [done | done |]. by apply Forall_singleton.
Qed.

Lemma touches_only_request_sent (temp : string) (w : world) :
  touches_only temp w (request_sent w).
Proof.
  split_and!; [done | simpl; lia |]. exists []. simpl. by rewrite app_nil_r.
Qed.

Lemma touches_only_lookup (temp p : string) (w w' : world) :
  touches_only temp w w' → p ≠ temp → files w' !! p = files w !! p.
Proof.
  intros (_ & _ & ops & _ & -> & Hall) Hne. apply replay_untouched.
  eapply Forall_impl; [exact Hall|]. simpl. intros op ->.
  by intros ->%list_elem_of_singleton.
Qed.

(** Before the rename that ends a successful download, and throughout a
    failed one, the destination holds what it held: no prefix of the
    operations on the temporary path changes it. *)
Lemma destination_intact (temp destination : string) (ops : list fs_op)
    (fs : gmap string string) (k : nat) :
  destination ≠ temp →
  Forall (λ op, op_targets op = [temp]) ops →
  replay (take k ops) fs !! destination = fs !! destination.
Proof.
  intros Hne Hall. apply replay_untouched.
  apply Forall_take. eapply Forall_impl; [exact Hall|]. simpl.
  intros op ->. by intros ->%list_elem_of_singleton.
Qed.

(** What [session.get] returns was the reply to one of the requests it
    sent, and that reply was outside the force list. *)
Lemma send_with_retry_spec (forcelist : list nat) (budget : nat) (url : string)
    (w : world) (r : result response) (w' : world) :
  send_with_retry forcelist budget url w = (r, w') →
  files w' = files w ∧ history w' = history w ∧ net w' = net w
  ∧ sent w < sent w' ≤ sent w + S budget
  ∧ ∀ resp, r = Ok resp →
      ∃ t, sent w ≤ t < sent w'
           ∧ net w url t = Reply (status_code resp) (body_chunks resp)
                             (body_complete resp)
           ∧ status_code resp ∉ forcelist.
Proof.
  revert w. induction budget as [|b IH]; intros w; simpl.
  - destruct (net w url (sent w)) as [status chunks complete|] eqn:Hnet.
    + case_bool_decide as Hforced; intros [= <- <-]; simpl;
        (split_and!; [done | done | done | lia | lia |]); intros resp [= <-].
      exists (sent w). simpl. split_and!; [lia | lia | done | done].
    + intros [= <- <-]. simpl. split_and!; [done | done | done | lia | lia | done].
  - destruct (net w url (sent w)) as [status chunks complete|] eqn:Hnet.
    + case_bool_decide as Hforced.
      * intros H. apply IH in H as (Hf & Hh & Hn & Hs & Hr). simpl in *.
        split_and!; [done | done | done | lia | lia |].
        intros resp Hresp. destruct (Hr resp Hresp) as (t & Ht & Hnt & Hst).
        exists t. split_and!; [lia | lia | done | done].
      * intros [= <- <-]. simpl. split_and!; [done | done | done | lia | lia |].
        intros resp [= <-]. exists (sent w). simpl.
        split_and!; [lia | lia | done | done].
    + intros H. apply IH in H as (Hf & Hh & Hn & Hs & Hr). simpl in *.
      split_and!; [done | done | done | lia | lia |].
      intros resp Hresp. destruct (Hr resp Hresp) as (t & Ht & Hnt & Hst).
      exists t. split_and!; [lia | lia | done | done].
Qed.

Lemma session_get_touches (temp url : string) (s : session) (w : world)
    (r : result response) (w' : world) :
  session_get s url w = (r, w') → touches_only temp w w'.
Proof.
  intros H. apply send_with_retry_spec in H as (Hf & Hh & Hn & Hs & _).
  split_and!; [done | lia |]. exists [].
  rewrite app_nil_r. by split_and!.
Qed.

Lemma write_chunks_spec (temp : string) (chunks : list string) (w : world)
    (c : string) :
  files w !! temp = Some c →
  touches_only temp w (write_chunks temp chunks w)
  ∧ files (write_chunks temp chunks w) !! temp = Some (c +:+ body_text chunks).
Proof.
  unfold write_chunks. revert w c.
  induction chunks as [|chunk chunks IH]; intros w c Hc; simpl.
  - split; [apply touches_only_refl | by rewrite app_nil_r_str].
  - destruct chunk as [|x chunk].
    + rewrite app_nil. by apply IH.
    + destruct (IH (fs_do (OpWrite temp (String x chunk)) w)
                  (c +:+ String x chunk)) as [Ht Hl].
      { simpl. rewrite lookup_alter_eq, Hc. done. }
      split.
      * eapply touches_only_trans; [|exact Ht]. by apply touches_only_fs_do.
      * by rewrite Hl, app_assoc_str.
Qed.

(** ** The asset fetcher *)

Lemma try_download_spec (url destination : string) (s : session) (w : world)
    (r : result unit) (w' : world) :
  try_download url destination s w = (r, w') →
  match r with
  | Ok _ => fetched url destination w w'
  | Raise _ => touches_only (temp_path destination) w w'
  end.
Proof.
  unfold try_download.
  destruct (session_get s url w) as [[resp|e] w1] eqn:Hget.
  - pose proof (session_get_touches (temp_path destination) _ _ _ _ _ Hget) as Ht1.
    apply send_with_retry_spec in Hget as (_ & _ & Hn & _ & Hresp).
    destruct (Hresp resp eq_refl) as (t & _ & Hnet & _).
    destruct (is_error_status (status_code resp)) eqn:Hstatus.
    { by intros [= <- <-]. }
    set (w2 := fs_do (OpOpenW (temp_path destination)) w1).
    destruct (write_chunks_spec (temp_path destination) (body_chunks resp) w2
                EmptyString) as [Ht3 Hbody].
    { subst w2. simpl. apply lookup_insert_eq. }
    rewrite app_nil in Hbody.
    assert (touches_only (temp_path destination) w
              (write_chunks (temp_path destination) (body_chunks resp) w2)) as Ht.
    { eapply touches_only_trans; [exact Ht1|].
      eapply touches_only_trans; [|exact Ht3].
      by apply touches_only_fs_do. }
    destruct (body_complete resp) eqn:Hcomplete.
    + intros [= <- <-].
      exists (write_chunks (temp_path destination) (body_chunks resp) w2),
        t, (status_code resp), (body_chunks resp).
      by split_and!.
    + by intros [= <- <-].
  - intros [= <- <-]. by eapply session_get_touches.
Qed.

Lemma download_attempts_spec (url destination : string) (s : session)
    (retries : nat) (attempts : list nat) :
  ∀ (w : world) (r : result unit) (w' : world),
    retries ∈ attempts →
    download_attempts attempts retries url destination s w = (r, w') →
    match r with
    | Ok _ => fetched url destination w w'
    | Raise _ =>
        touches_only (temp_path destination) w w'
        ∧ files w' !! temp_path destination = None
    end.
Proof.
  induction attempts as [|attempt rest IH]; intros w r w' Hin.
  - by apply elem_of_nil in Hin.
  - simpl.
    destruct (try_download url destination s w) as [[[]|e] w1] eqn:Htry;
      apply try_download_spec in Htry.
    + by intros [= <- <-].
    + set (w2 := fs_do (OpUnlink (temp_path destination)) w1).
      assert (touches_only (temp_path destination) w w2) as Ht2.
      { eapply touches_only_trans; [exact Htry|]. by apply touches_only_fs_do. }
      destruct (attempt =? retries) eqn:Hlast.
      * intros [= <- <-]. split; [done|]. subst w2. simpl.
        apply lookup_delete_eq.
      * apply Nat.eqb_neq in Hlast.
        apply elem_of_cons in Hin as [->|Hin]; [done|].
        intros Hrest. apply IH in Hrest; [|done].
        destruct r as [[]|e'].
        -- destruct Hrest as (w3 & t & status & chunks & H3 & -> & Hb & Hn & Hs).
           exists w3, t, status, chunks. split_and!; try done.
           ++ by eapply touches_only_trans.
           ++ destruct Ht2 as (Hnet & _). by rewrite <- Hnet.
        -- destruct Hrest as [Ht Hl]. split; [|done].
           by eapply touches_only_trans.
Qed.

(** With no attempt granted the loop body never runs and the call returns
    without having done anything. *)
Lemma download_image_no_attempt (url destination : string) (s : session)
    (w : world) :
  download_image url destination s 0 w = (Ok tt, w).
Proof. reflexivity. Qed.

(** C2.  A call of [download_image] with at least one attempt (the source
    grants three) either succeeds or raises.  On success the destination
    holds the complete body of a reply that was not an error, the
    destination was written by exactly one operation, the rename of the
    temporary file that ends the call, every operation before it was on
    the temporary path, and the temporary file is gone.  On failure no
    operation touched the destination, which keeps what it held, and the
    temporary file is gone.  In both cases every other path is as before,
    and the files are what replaying the recorded operations yields. *)
Theorem download_image_effect (url destination : string) (s : session)
    (retries : nat) (w : world) (r : result unit) (w' : world) :
  retries ≠ 0 →
  download_image url destination s retries w = (r, w') →
  let temp := temp_path destination in
  files w' !! temp = None
  ∧ (∀ p, p ≠ destination → p ≠ temp → files w' !! p = files w !! p)
  ∧ match r with
    | Ok _ =>
        (∃ t status chunks,
           net w url t = Reply status chunks true
           ∧ is_error_status status = false
           ∧ files w' !! destination = Some (body_text chunks))
        ∧ ∃ ops,
            history w' = history w ++ ops ++ [OpReplace temp destination]
            ∧ files w' = replay (ops ++ [OpReplace temp destination]) (files w)
            ∧ Forall (λ op, op_targets op = [temp]) ops
    | Raise _ =>
        files w' !! destination = files w !! destination
        ∧ ∃ ops,
            history w' = history w ++ ops
            ∧ files w' = replay ops (files w)
            ∧ Forall (λ op, op_targets op = [temp]) ops
    end.
Proof.
  intros Hpos Hrun. cbv zeta. unfold download_image in Hrun.
  apply download_attempts_spec in Hrun; [|apply elem_of_seq; lia].
  pose proof (temp_path_ne destination) as Hne.
  unfold fetched in Hrun. set (temp := temp_path destination) in *.
  destruct r as [[]|e].
  - destruct Hrun as (w3 & t & status & chunks & Ht & -> & Hbody & Hnet & Hstatus).
    assert (files (fs_do (OpReplace temp destination) w3)
            = <[destination := body_text chunks]> (delete temp (files w3))) as Hfiles.
    { simpl. by rewrite Hbody. }
    split_and!.
    + rewrite Hfiles, lookup_insert_ne by done. apply lookup_delete_eq.
    + intros p Hp1 Hp2.
      rewrite Hfiles, lookup_insert_ne, lookup_delete_ne by done.
      by eapply touches_only_lookup.
    + exists t, status, chunks. split_and!; [done | done |].
      rewrite Hfiles. apply lookup_insert_eq.
    + destruct Ht as (_ & _ & ops & Hh & Hf & Hall). exists ops. split_and!.
      * simpl. by rewrite Hh, app_assoc.
      * rewrite replay_app. simpl. by rewrite Hf.
      * done.
  - destruct Hrun as [Ht Hgone]. split_and!.
    + done.
    + intros p _ Hp. by eapply touches_only_lookup.
    + by eapply touches_only_lookup.
    + destruct Ht as (_ & _ & ops & Hh & Hf & Hall). by exists ops.
Qed.

Lemma download_image_effect_witness :
  let w := World {[ "assets/a.jpg" := "old" ]}
             (λ _ t, if t =? 0 then Reply 200 ["par"] false
                     else Reply 200 ["whole "; ""; "body"] true) 0 [] in
  3 ≠ 0
  ∧ files (download_image "http://x/a.jpg" "assets/a.jpg" build_session 3 w).2
      !! "assets/a.jpg" = Some "whole body"
  ∧ files (download_image "http://x/a.jpg" "assets/a.jpg" build_session 3 w).2
      !! "assets/a.jpg.part" = None.
Proof.
  intros w.
  destruct (download_image "http://x/a.jpg" "assets/a.jpg" build_session 3 w) as [r w'] eqn:Hrun.
  pose proof (download_image_effect _ _ _ 3 w r w' ltac:(lia) Hrun) as (Hgone & _ & _).
  split; [lia|]. split; [|exact Hgone].
  vm_compute in Hrun. injection Hrun as <- <-. by vm_compute.
Defined.

(** ** Terminal statuses and the attempt budget *)

(** A reply outside the force list ends the adapter's loop at once,
    whatever is left of its budget. *)
Lemma send_with_retry_final (forcelist : list nat) (budget : nat) (url : string)
    (w : world) (status : nat) (chunks : list string) (complete : bool) :
  net w url (sent w) = Reply status chunks complete →
  status ∉ forcelist →
  send_with_retry forcelist budget url w
  = (Ok (Response status chunks complete), request_sent w).
Proof.
  intros Hnet Hforced.
  destruct budget; simpl; by rewrite Hnet, bool_decide_eq_false_2.
Qed.

(** A reply whose status is an error outside the force list is not retried
    by the session: one request, then [raise_for_status] raises. *)
Lemma try_download_terminal (url destination : string) (s : session)
    (w : world) (status : nat) (chunks : list string) (complete : bool) :
  net w url (sent w) = Reply status chunks complete →
  is_error_status status = true →
  status ∉ status_forcelist s →
  try_download url destination s w = (Raise (HTTPError status), request_sent w).
Proof.
  intros Hnet Herr Hforced. unfold try_download, session_get.
  rewrite (send_with_retry_final _ _ _ _ _ _ _ Hnet Hforced). simpl.
  by rewrite Herr.
Qed.

Lemma download_attempts_terminal (url destination : string) (s : session)
    (retries status : nat) (n : nat) :
  ∀ (first : nat) (w : world),
    n ≠ 0 → first + n = S retries →
    is_error_status status = true →
    status ∉ status_forcelist s →
    (∀ t, sent w ≤ t → ∃ chunks complete, net w url t = Reply status chunks complete) →
    ∃ w',
      download_attempts (seq first n) retries url destination s w
      = (Raise (HTTPError status), w')
      ∧ sent w' = sent w + n
      ∧ history w' = history w ++ replicate n (OpUnlink (temp_path destination)).
Proof.
  induction n as [|n IH]; intros first w Hn Hsum Herr Hforced Hnet; [done|].
  destruct (Hnet (sent w)) as (chunks & complete & Hnow); [done|].
  simpl. rewrite (try_download_terminal _ _ _ _ _ _ _ Hnow Herr Hforced).
  destruct (first =? retries) eqn:Hlast.
  - apply Nat.eqb_eq in Hlast. assert (n = 0) as -> by lia.
    eexists. split_and!; [done | simpl; lia | done].
  - apply Nat.eqb_neq in Hlast.
    destruct (IH (S first)
                (fs_do (OpUnlink (temp_path destination)) (request_sent w)))
      as (w' & Hrun & Hsent & Hhist); try done; try lia.
    { simpl. intros t Ht. apply Hnet. lia. }
    exists w'. split_and!; [done | simpl in Hsent; lia |].
    rewrite Hhist. simpl. by rewrite <- app_assoc.
Qed.

(** C6, as the code has it.  When every reply to the URL carries an error
    status outside the force list, [download_image] does not give up at
    the first reply: it makes every attempt of its budget, one request
    each (the session does not retry such a status), unlinks the temporary
    path after each, and only then raises the [HTTPError]. *)
Theorem download_image_terminal_status (url destination : string)
    (s : session) (retries status : nat) (w : world) :
  retries ≠ 0 →
  is_error_status status = true →
  status ∉ status_forcelist s →
  (∀ t, sent w ≤ t → ∃ chunks complete, net w url t = Reply status chunks complete) →
  ∃ w',
    download_image url destination s retries w = (Raise (HTTPError status), w')
    ∧ sent w' = sent w + retries
    ∧ history w' = history w ++ replicate retries (OpUnlink (temp_path destination)).
Proof.
  intros Hpos Herr Hforced Hnet. unfold download_image.
  apply download_attempts_terminal; [done | lia | done | done | done].
Qed.

Lemma download_image_terminal_status_witness :
  ∃ w',
    download_image "http://x/a.jpg" "assets/a.jpg" build_session 3
      (empty_world (always_status 404)) = (Raise (HTTPError 404), w')
    ∧ sent w' = 3.
Proof.
  destruct (download_image_terminal_status "http://x/a.jpg" "assets/a.jpg"
              build_session 3 404 (empty_world (always_status 404)))
    as (w' & Hrun & Hsent & _).
  - lia.
  - reflexivity.
  - apply (bool_decide_unpack _). by vm_compute.
  - intros t _. by exists [], true.
  - exists w'. split; [exact Hrun | exact Hsent].
Defined.

(** C6, as the specification words it, fails: a 404, which is outside the
    force list, is not surfaced after the first reply; all three attempts
    of the budget are made. *)
Lemma terminal_status_uses_whole_budget :
  let run := download_image "http://x/a.jpg" "assets/a.jpg" build_session
               default_retries (empty_world (always_status 404)) in
  (404 ∉ status_forcelist build_session)
  ∧ run.1 = Raise (HTTPError 404)
  ∧ sent run.2 = default_retries
  ∧ sent run.2 ≠ 1.
Proof.
  split_and!.
  - apply (bool_decide_unpack _). by vm_compute.
  - by vm_compute.
  - by vm_compute.
  - by vm_compute.
Qed.

(** ** The reconciler loop as a sequence of steps *)

Lemma run_items_app (its1 its2 : list item) (st : state) (w : world) :
  run_items (its1 ++ its2) st w
  = match run_items its1 st w with
    | (Ok st', w') => run_items its2 st' w'
    | (Raise e, w') => (Raise e, w')
    end.
Proof.
  revert st w. induction its1 as [|it its1 IH]; intros st w; simpl; [done|].
  destruct (step it st w) as [[st'|e] w']; [apply IH | done].
Qed.

Lemma process_images_run_items (poster_title : string) (total : nat)
    (urls : list string) :
  ∀ (idx : nat) (st : state) (w : world),
    process_images poster_title total idx urls st w
    = run_items (imap (λ i url, Item poster_title total (idx + i) url) urls) st w.
Proof.
  induction urls as [|url urls IH]; intros idx st w; simpl; [done|].
  unfold step at 1. simpl. rewrite Nat.add_0_r.
  destruct (process_url poster_title total idx url st w) as [[st'|e] w']; [|done].
  rewrite IH. f_equal. apply imap_ext. intros i u _. simpl. f_equal. lia.
Qed.

(** The nested loops of [main] visit the items of the manifest in order. *)
Lemma process_posters_run_items (posters : list poster) (st : state) (w : world) :
  process_posters posters st w = run_items (work_items posters) st w.
Proof.
  revert st w. induction posters as [|p posters IH]; intros st w; [done|].
  unfold work_items. rewrite bind_cons. fold (work_items posters).
  rewrite run_items_app. simpl. rewrite process_images_run_items.
  unfold poster_items. simpl.
  destruct (run_items _ st w) as [[st'|e] w']; [apply IH | done].
Qed.

(** ** The cache and the reserved set agree *)

Lemma agree_initial (loaded : dict) : agree (initial_state loaded).
Proof. intros name. simpl. apply elem_of_list_to_set. Qed.

Lemma fetch_and_install_agree (url target : string) (st st' : state)
    (w w' : world) :
  fetch_and_install url target st w = (Ok st', w') → agree st → agree st'.
Proof.
  unfold fetch_and_install, agree.
  destruct (download_image url (asset target) build_session default_retries w) as [[[]|e] w1];
    intros [= <- <-] Hagree name; simpl.
  - rewrite dict_keys_set, elem_of_union, elem_of_singleton, Hagree. tauto.
  - apply Hagree.
Qed.

Lemma rename_or_drop_agree (url target existing_name : string) (st st' : state)
    (w w' : world) :
  rename_or_drop url target existing_name st w = (Ok st', w') →
  agree st → agree st'.
Proof.
  unfold rename_or_drop. intros Hrun Hagree.
  destruct (dict_del existing_name (image_cache st)) as [cache'|] eqn:Hdel.
  - apply dict_del_Some in Hdel as [-> _].
    destruct (path_exists (asset existing_name) w).
    + injection Hrun as <- <-. intros name. simpl.
      rewrite dict_keys_set, dict_keys_remove, elem_of_union,
        elem_of_difference, !elem_of_singleton, (Hagree name).
      tauto.
    + eapply fetch_and_install_agree; [exact Hrun|].
      intros name. simpl.
      rewrite dict_keys_remove, elem_of_difference, elem_of_singleton,
        (Hagree name).
      tauto.
  - by destruct (path_exists (asset existing_name) w).
Qed.

Lemma process_url_agree (poster_title : string) (total idx : nat) (url : string)
    (st st' : state) (w w' : world) :
  process_url poster_title total idx url st w = (Ok st', w') →
  agree st → agree st'.
Proof.
  unfold process_url. destruct url as [|c url]; [by intros [= <- <-]|].
  destruct (filename_from_title poster_title (String c url) idx total)
    as [base ext].
  destruct (choose_filename base ext (String c url) (image_cache st)
              (reserved_names st)) as [target|]; [|done].
  destruct (bool_decide (dict_get target (image_cache st) = Some (String c url))
            && path_exists (asset target) w).
  { by intros [= <- <-]. }
  destruct (url_to_filename st !! String c url) as [existing_name|].
  - destruct (bool_decide (existing_name ≠ EmptyString)
              && bool_decide (existing_name ≠ target)).
    + apply rename_or_drop_agree.
    + apply fetch_and_install_agree.
  - apply fetch_and_install_agree.
Qed.

Lemma run_items_agree (its : list item) :
  ∀ (st st' : state) (w w' : world),
    run_items its st w = (Ok st', w') → agree st → agree st'.
Proof.
  induction its as [|it its IH]; intros st st' w w'; simpl.
  - by intros [= <- <-].
  - destruct (step it st w) as [[st1|e] w1] eqn:Hstep; [|done].
    intros Hrun Hagree. eapply IH; [exact Hrun|].
    by eapply process_url_agree.
Qed.

(** C9.  At every boundary of the reconciler loop, that is after any
    number [k] of the manifest's (poster, URL) pairs has been processed, a
    filename is in the reserved set exactly when it is a key of the cache;
    in particular every key of the cache is reserved.  The state after [k]
    pairs is the one [main]'s nested loops pass through
    ([process_posters_run_items]); the skip, rename, stale-drop, fetched
    and failed branches are the cases of [process_url_agree]. *)
Theorem cache_and_reserved_agree (posters : list poster) (loaded : dict)
    (w : world) (k : nat) (st : state) (w' : world) :
  run_items (take k (work_items posters)) (initial_state loaded) w = (Ok st, w') →
  ∀ name, name ∈ reserved_names st ↔ is_Some (dict_get name (image_cache st)).
Proof.
  intros Hrun name. rewrite dict_get_keys.
  eapply run_items_agree; [exact Hrun | apply agree_initial].
Qed.

Lemma cache_and_reserved_agree_witness :
  ∃ st w',
    run_items
      (take 2 (work_items [Poster "Dup" ["http://x/a.jpg"];
                           Poster "Dup" ["http://x/b.jpg"; ""]]))
      (initial_state [("Old.jpg", "http://x/a.jpg")])
      (empty_world (always_ok ["body"])) = (Ok st, w')
    ∧ ∀ name, name ∈ reserved_names st
              ↔ is_Some (dict_get name (image_cache st)).
Proof.
  destruct (run_items
      (take 2 (work_items [Poster "Dup" ["http://x/a.jpg"];
                           Poster "Dup" ["http://x/b.jpg"; ""]]))
      (initial_state [("Old.jpg", "http://x/a.jpg")])
      (empty_world (always_ok ["body"]))) as [[st|e] w'] eqn:Hrun.
  - exists st, w'. split; [reflexivity|].
    exact (cache_and_reserved_agree _ _ _ 2 st w' Hrun).
  - vm_compute in Hrun. discriminate Hrun.
Defined.

(** ** Names in the cache are never handed to another URL *)

Lemma choose_filename_free (base ext url target : string) (cache : dict)
    (reserved : gset string) :
  choose_filename base ext url cache reserved = Some target →
  conflict_cache target url cache = false
  ∧ conflict_reserved target cache reserved = false.
Proof.
  intros Hchoose.
  destruct (choose_filename_returns base ext url cache reserved)
    as (name & Hname & Hc & Hr & _).
  rewrite Hname in Hchoose. injection Hchoose as <-. done.
Qed.

(** The name the resolver returns is free in the cache or already bound to
    the URL it was asked for. *)
Lemma choose_filename_owner (base ext url target owner : string) (cache : dict)
    (reserved : gset string) :
  choose_filename base ext url cache reserved = Some target →
  dict_get target cache = Some owner →
  owner = url.
Proof.
  intros [Hc _]%choose_filename_free Hget.
  unfold conflict_cache in Hc. rewrite Hget in Hc.
  apply bool_decide_eq_false in Hc. by apply dec_stable in Hc.
Qed.

Lemma bindings_kept_refl (url : string) (cache : dict) :
  bindings_kept url cache cache.
Proof. intros f u Hf. by left. Qed.

Lemma bindings_kept_set (url target : string) (cache : dict) :
  (∀ owner, dict_get target cache = Some owner → owner = url) →
  bindings_kept url cache (dict_set target url cache).
Proof.
  intros Hfree f u. destruct (decide (target = f)) as [<-|Hne].
  - rewrite dict_get_set_eq. intros [= <-].
    destruct (dict_get target cache) as [owner|] eqn:Hget; [left | by right].
    by rewrite (Hfree owner).
  - rewrite dict_get_set_ne by done. by left.
Qed.

Lemma bindings_kept_remove (url k : string) (cache : dict) :
  bindings_kept url cache (dict_remove k cache).
Proof.
  intros f u. destruct (decide (k = f)) as [<-|Hne].
  - by rewrite dict_get_remove_eq.
  - rewrite dict_get_remove_ne by done. by left.
Qed.

Lemma bindings_kept_remove_set (url target k : string) (cache : dict) :
  k ≠ target →
  (∀ owner, dict_get target cache = Some owner → owner = url) →
  bindings_kept url cache (dict_set target url (dict_remove k cache)).
Proof.
  intros Hne Hfree f u Hf. destruct (decide (target = f)) as [<-|Htf].
  - rewrite dict_get_set_eq in Hf. injection Hf as <-.
    destruct (dict_get target cache) as [owner|] eqn:Hget; [left | by right].
    by rewrite (Hfree owner).
  - rewrite dict_get_set_ne in Hf by done.
    destruct (decide (k = f)) as [<-|Hkf].
    + by rewrite dict_get_remove_eq in Hf.
    + rewrite dict_get_remove_ne in Hf by done. by left.
Qed.

Lemma fetch_and_install_change (url target : string) (st st' : state)
    (w w' : world) :
  fetch_and_install url target st w = (Ok st', w') →
  image_cache st' = image_cache st
  ∨ image_cache st' = dict_set target url (image_cache st).
Proof.
  unfold fetch_and_install.
  destruct (download_image url (asset target) build_session default_retries w) as [[[]|e] w1];
    intros [= <- <-]; simpl; [by right | by left].
Qed.

Lemma rename_or_drop_change (url target existing_name : string)
    (st st' : state) (w w' : world) :
  rename_or_drop url target existing_name st w = (Ok st', w') →
  existing_name ≠ target →
  cache_change url target (image_cache st) (image_cache st').
Proof.
  unfold rename_or_drop. intros Hrun Hne.
  destruct (dict_del existing_name (image_cache st)) as [cache'|] eqn:Hdel.
  - apply dict_del_Some in Hdel as [-> _].
    destruct (path_exists (asset existing_name) w).
    + injection Hrun as <- <-. simpl. by apply change_move.
    + apply fetch_and_install_change in Hrun as [->| ->]; simpl.
      * by apply change_drop.
      * by apply change_move.
  - by destruct (path_exists (asset existing_name) w).
Qed.

Lemma process_url_change (poster_title : string) (total idx : nat) (url : string)
    (st st' : state) (w w' : world) :
  process_url poster_title total idx url st w = (Ok st', w') →
  url = EmptyString ∧ st' = st
  ∨ ∃ target,
      choose_filename (filename_from_title poster_title url idx total).1
        (filename_from_title poster_title url idx total).2 url
        (image_cache st) (reserved_names st) = Some target
      ∧ cache_change url target (image_cache st) (image_cache st').
Proof.
  unfold process_url. destruct url as [|c url]; [intros [= <- <-]; by left|].
  destruct (filename_from_title poster_title (String c url) idx total)
    as [base ext]. simpl.
  destruct (choose_filename base ext (String c url) (image_cache st)
              (reserved_names st)) as [target|]; [|done].
  intros Hrun. right. exists target. split; [done|].
  destruct (bool_decide (dict_get target (image_cache st) = Some (String c url))
            && path_exists (asset target) w).
  { injection Hrun as <- <-. apply change_none. }
  destruct (url_to_filename st !! String c url) as [existing_name|].
  - destruct (bool_decide (existing_name ≠ EmptyString)) eqn:Hnonempty;
      simpl in Hrun.
    + case_bool_decide as Hother; simpl in Hrun.
      * by eapply rename_or_drop_change.
      * apply fetch_and_install_change in Hrun as [->| ->];
          [apply change_none | apply change_install].
    + apply fetch_and_install_change in Hrun as [->| ->];
        [apply change_none | apply change_install].
  - apply fetch_and_install_change in Hrun as [->| ->];
      [apply change_none | apply change_install].
Qed.

Lemma cache_change_bindings (url target : string) (cache cache' : dict) :
  cache_change url target cache cache' →
  (∀ owner, dict_get target cache = Some owner → owner = url) →
  bindings_kept url cache cache'.
Proof.
  intros [| |e He|e He] Hfree.
  - apply bindings_kept_refl.
  - by apply bindings_kept_set.
  - apply bindings_kept_remove.
  - by apply bindings_kept_remove_set.
Qed.

Lemma cache_change_NoDup (url target : string) (cache cache' : dict) :
  cache_change url target cache cache' →
  NoDup (dict_keys cache) → NoDup (dict_keys cache').
Proof.
  intros [| |e He|e He] Hnd.
  - done.
  - by apply dict_set_NoDup.
  - by apply dict_remove_NoDup.
  - by apply dict_set_NoDup, dict_remove_NoDup.
Qed.

(** In every iteration of the loop, at whatever state it starts: the name
    the resolver returns for the URL is free in the cache or already bound
    to that same URL, so it is never a name the cache binds to a different
    URL; every binding of the cache after the iteration is a binding it
    had before or binds a name that was free to the URL just processed, so
    no filename ever passes from one URL to another; and the keys of the
    cache stay pairwise distinct. *)
Lemma cached_names_keep_their_url (it : item) (st st' : state) (w w' : world) :
  step it st w = (Ok st', w') →
  (∀ target owner,
     choose_filename
       (filename_from_title (i_title it) (i_url it) (i_idx it) (i_total it)).1
       (filename_from_title (i_title it) (i_url it) (i_idx it) (i_total it)).2
       (i_url it) (image_cache st) (reserved_names st) = Some target →
     dict_get target (image_cache st) = Some owner → owner = i_url it)
  ∧ (∀ f u, dict_get f (image_cache st') = Some u →
            dict_get f (image_cache st) = Some u
            ∨ (dict_get f (image_cache st) = None ∧ u = i_url it))
  ∧ (NoDup (dict_keys (image_cache st)) → NoDup (dict_keys (image_cache st'))).
Proof.
  intros Hstep. split.
  { intros target owner. apply choose_filename_owner. }
  unfold step in Hstep.
  apply process_url_change in Hstep as [[_ ->]|(target & Hchoose & Hchange)].
  - split; [apply bindings_kept_refl | done].
  - split.
    + eapply cache_change_bindings; [exact Hchange|].
      intros owner. by eapply choose_filename_owner.
    + by eapply cache_change_NoDup.
Qed.

(** C1, as the specification words it, fails, in two ways.  First: two
    posters titled [Dup], one image each; the first URL answers 404, the
    second is served.  The first name is not installed after the failed
    fetch, and the resolver returns [Dup.jpg] for both URLs.  Second, with
    every fetch served: a URL listed by the posters [A] and [B] is
    downloaded as [A.jpg] and then renamed to [B.jpg], which frees
    [A.jpg] for the other URL of a third poster titled [A]. *)
Lemma resolved_names_can_coincide :
  (∃ st w',
     process_posters
       [Poster "Dup" ["http://x/a.jpg"]; Poster "Dup" ["http://x/b.jpg"]]
       (initial_state [])
       (empty_world (λ url _, if bool_decide (url = "http://x/a.jpg")
                              then Reply 404 [] true
                              else Reply 200 ["body"] true))
     = (Ok st, w')
     ∧ journal st
       = [Decision "http://x/a.jpg" "Dup.jpg" (Failed (HTTPError 404));
          Decision "http://x/b.jpg" "Dup.jpg" Downloaded]
     ∧ ¬ resolved_names_differ (journal st))
  ∧ (∃ st w',
       process_posters
         [Poster "A" ["http://x/a.jpg"]; Poster "B" ["http://x/a.jpg"];
          Poster "A" ["http://x/b.jpg"]]
         (initial_state []) (empty_world (always_ok ["body"]))
       = (Ok st, w')
       ∧ journal st
         = [Decision "http://x/a.jpg" "A.jpg" Downloaded;
            Decision "http://x/a.jpg" "B.jpg" (Renamed "A.jpg");
            Decision "http://x/b.jpg" "A.jpg" Downloaded]
       ∧ ¬ resolved_names_differ (journal st)).
Proof.
  split.
  - eexists _, _. split; [by vm_compute|]. split; [reflexivity|].
    intros Hdiffer.
    apply (Hdiffer
             (Decision "http://x/a.jpg" "Dup.jpg" (Failed (HTTPError 404)))
             (Decision "http://x/b.jpg" "Dup.jpg" Downloaded)).
    + set_solver.
    + set_solver.
    + discriminate.
    + reflexivity.
  - eexists _, _. split; [by vm_compute|]. split; [reflexivity|].
    intros Hdiffer.
    apply (Hdiffer
             (Decision "http://x/a.jpg" "A.jpg" Downloaded)
             (Decision "http://x/b.jpg" "A.jpg" Downloaded)).
    + set_solver.
    + set_solver.
    + discriminate.
    + reflexivity.
Qed.

(** ** A warm cache is left alone *)







(** ** The deriver and the collision counter at work *)

Lemma str_or_nonempty (a b : string) : b ≠ EmptyString → str_or a b ≠ EmptyString.
Proof. by destruct a. Qed.

(** [sanitize_title] never returns the empty string: its own fallback
    [image] takes over first. *)
Lemma sanitize_title_nonempty (title : string) : sanitize_title title ≠ EmptyString.
Proof. unfold sanitize_title. by apply str_or_nonempty. Qed.

Lemma str_or_left (a b : string) : a ≠ EmptyString → str_or a b = a.
Proof. by destruct a. Qed.

(** Hence the base name is made from the title alone; the stem of the URL
    path, the right operand of the [or], is never used. *)
Lemma filename_from_title_base (title url : string) (index total : nat) :
  (filename_from_title title url index total).1
  = if 1 <? total then sanitize_title title +:+ "_" +:+ pretty (index + 1)
    else sanitize_title title.
Proof.
  unfold filename_from_title. simpl.
  by rewrite str_or_left by apply sanitize_title_nonempty.
Qed.



Lemma choose_filename_first (base ext url : string) (cache : dict)
    (reserved : gset string) :
  has_conflict (base +:+ ext) url cache reserved = false →
  choose_filename base ext url cache reserved = Some (base +:+ ext).
Proof.
  unfold choose_filename, choose_filename_fuel, has_conflict. simpl.
  by intros ->.
Qed.






(** ** Failed fetches are tolerated when no URL repeats

    When no non-empty URL occurs twice in the manifest, the run reaches
    its summary whatever the server answers. *)



Lemma invert_from (l : dict) :
  ∀ (m : gmap string string) (u n : string),
    foldl (λ m kv, <[kv.2 := kv.1]> m) m l !! u = Some n →
    (n, u) ∈ l ∨ m !! u = Some n.
Proof.
  induction l as [|[k v] l IH]; intros m u n; simpl; [by right|].
  intros [Hin|Hm]%IH.
  - left. by apply list_elem_of_further.
  - destruct (decide (v = u)) as [->|Hne].
    + rewrite lookup_insert_eq in Hm. injection Hm as ->.
      left. apply list_elem_of_here.
    + rewrite lookup_insert_ne in Hm by done. by right.
Qed.

Lemma dict_get_elem (l : dict) (n u : string) :
  NoDup (dict_keys l) → (n, u) ∈ l → dict_get n l = Some u.
Proof.
  unfold dict_keys. induction l as [|[k v] l IH]; simpl; intros Hnd Hin.
  - by apply elem_of_nil in Hin.
  - apply NoDup_cons in Hnd as [Hk Hnd].
    apply elem_of_cons in Hin as [[= -> ->]|Hin].
    + by rewrite decide_True.
    + rewrite decide_False; [by apply IH|].
      intros ->. apply Hk. apply list_elem_of_fmap. by exists (n, u).
Qed.

(** The index built at start-up points at entries of the cache. *)
Lemma invert_owner (loaded : dict) (u n : string) :
  NoDup (dict_keys loaded) →
  invert loaded !! u = Some n → dict_get n loaded = Some u.
Proof.
  intros Hnd Hinv. apply dict_get_elem; [done|].
  apply invert_from in Hinv as [Hin|Hempty]; [done|].
  by rewrite lookup_empty in Hempty.
Qed.



Lemma fetch_and_install_index (url target : string) (st st' : state)
    (w w' : world) :
  fetch_and_install url target st w = (Ok st', w') →
  (url_to_filename st' = url_to_filename st
   ∨ url_to_filename st' = <[url := target]> (url_to_filename st)).
Proof.
  unfold fetch_and_install.
  destruct (download_image url (asset target) build_session default_retries w) as [[[]|e] w1];
    intros [= <- <-]; simpl; [by right | by left].
Qed.

(** An iteration for [url] changes the index at [url] only. *)
Lemma process_url_index_others (poster_title : string) (total idx : nat)
    (url : string) (st st' : state) (w w' : world) (u : string) :
  process_url poster_title total idx url st w = (Ok st', w') →
  u ≠ url →
  url_to_filename st' !! u = url_to_filename st !! u.
Proof.
  intros Hrun Hne. unfold process_url in Hrun. destruct url as [|c url].
  { by injection Hrun as <- <-. }
  destruct (filename_from_title poster_title (String c url) idx total)
    as [base ext].
  destruct (choose_filename base ext (String c url) (image_cache st)
              (reserved_names st)) as [target|]; [|done].
  destruct (bool_decide (dict_get target (image_cache st) = Some (String c url))
            && path_exists (asset target) w).
  { by injection Hrun as <- <-. }
  assert (∀ st0 st1 w0 w1,
            fetch_and_install (String c url) target st0 w0 = (Ok st1, w1) →
            url_to_filename st1 !! u = url_to_filename st0 !! u) as Hfetch.
  { intros st0 st1 w0 w1 [->| ->]%fetch_and_install_index; [done|].
    by rewrite lookup_insert_ne. }
  destruct (url_to_filename st !! String c url) as [existing_name|];
    [|by eapply Hfetch].
  destruct (bool_decide (existing_name ≠ EmptyString)
            && bool_decide (existing_name ≠ target)); [|by eapply Hfetch].
  unfold rename_or_drop in Hrun.
  destruct (dict_del existing_name (image_cache st)) as [cache'|].
  - destruct (path_exists (asset existing_name) w).
    + injection Hrun as <- <-. simpl. by rewrite lookup_insert_ne.
    + by apply Hfetch in Hrun.
  - by destruct (path_exists (asset existing_name) w).
Qed.

(** It leaves the cache entries of the other URLs in place, provided the
    name the index holds for [url] is bound to [url]. *)
Lemma process_url_cache_others (poster_title : string) (total idx : nat)
    (url : string) (st st' : state) (w w' : world) (u n : string) :
  process_url poster_title total idx url st w = (Ok st', w') →
  (∀ e, url_to_filename st !! url = Some e →
        dict_get e (image_cache st) = Some url) →
  u ≠ url →
  dict_get n (image_cache st) = Some u →
  dict_get n (image_cache st') = Some u.
Proof.
  intros Hrun Hindex Hne Hn.
  assert (∀ e, url_to_filename st !! url = Some e → e ≠ n) as Hexisting.
  { intros e He ->. apply Hindex in He. congruence. }
  unfold process_url in Hrun. destruct url as [|c url].
  { by injection Hrun as <- <-. }
  destruct (filename_from_title poster_title (String c url) idx total)
    as [base ext].
  destruct (choose_filename base ext (String c url) (image_cache st)
              (reserved_names st)) as [target|] eqn:Hchoose; [|done].
  assert (target ≠ n) as Htarget.
  { intros ->. apply Hne. by eapply choose_filename_owner. }
  destruct (bool_decide (dict_get target (image_cache st) = Some (String c url))
            && path_exists (asset target) w).
  { by injection Hrun as <- <-. }
  assert (∀ st0 st1 w0 w1,
            fetch_and_install (String c url) target st0 w0 = (Ok st1, w1) →
            dict_get n (image_cache st0) = Some u →
            dict_get n (image_cache st1) = Some u) as Hfetch.
  { intros st0 st1 w0 w1 [->| ->]%fetch_and_install_change Hn0; [done|].
    by rewrite dict_get_set_ne. }
  destruct (url_to_filename st !! String c url) as [existing_name|] eqn:Hex;
    [|by eapply Hfetch].
  destruct (bool_decide (existing_name ≠ EmptyString)
            && bool_decide (existing_name ≠ target)); [|by eapply Hfetch].
  specialize (Hexisting existing_name eq_refl).
  unfold rename_or_drop in Hrun.
  destruct (dict_del existing_name (image_cache st)) as [cache'|] eqn:Hdel.
  - apply dict_del_Some in Hdel as [-> _].
    destruct (path_exists (asset existing_name) w).
    + injection Hrun as <- <-. simpl.
      by rewrite dict_get_set_ne, dict_get_remove_ne.
    + eapply Hfetch; [exact Hrun|]. simpl. by rewrite dict_get_remove_ne.
  - by destruct (path_exists (asset existing_name) w).
Qed.




(** ** Installed names differ across URLs *)

Lemma fetch_and_install_journal (url target : string) (st st' : state)
    (w w' : world) :
  fetch_and_install url target st w = (Ok st', w') →
  ∃ o,
    journal st' = journal st ++ [Decision url target o]
    ∧ ((∀ e, o ≠ Failed e) → dict_get target (image_cache st') = Some url).
Proof.
  unfold fetch_and_install.
  destruct (download_image url (asset target) build_session default_retries w)
    as [[[]|e] w1]; intros [= <- <-]; simpl.
  - exists Downloaded. split; [done|]. intros _. apply dict_get_set_eq.
  - exists (Failed e). split; [done|]. intros Hnot. by destruct (Hnot e).
Qed.

(** An iteration for a non-empty URL appends one decision to the journal:
    the URL, the name the resolver returned, and the outcome; unless the
    outcome is a failed fetch, the cache then binds that name to the
    URL. *)
Lemma process_url_journal (poster_title : string) (total idx : nat) (url : string)
    (st st' : state) (w w' : world) :
  process_url poster_title total idx url st w = (Ok st', w') →
  url ≠ EmptyString →
  ∃ target o,
    choose_filename (filename_from_title poster_title url idx total).1
      (filename_from_title poster_title url idx total).2 url
      (image_cache st) (reserved_names st) = Some target
    ∧ journal st' = journal st ++ [Decision url target o]
    ∧ ((∀ e, o ≠ Failed e) → dict_get target (image_cache st') = Some url).
Proof.
  unfold process_url. destruct url as [|c url]; [done|]. intros Hrun _.
  destruct (filename_from_title poster_title (String c url) idx total)
    as [base ext]. simpl.
  destruct (choose_filename base ext (String c url) (image_cache st)
              (reserved_names st)) as [target|]; [|done].
  exists target.
  destruct (bool_decide (dict_get target (image_cache st) = Some (String c url))
            && path_exists (asset target) w) eqn:Hskip.
  { injection Hrun as <- <-. exists Skipped. simpl. split_and!; [done | done |].
    intros _. apply andb_true_iff in Hskip as [Hskip _].
    by apply bool_decide_eq_true in Hskip. }
  assert (∀ st0 w0,
            fetch_and_install (String c url) target st0 w0 = (Ok st', w') →
            journal st0 = journal st →
            ∃ o, Some target = Some target
                 ∧ journal st' = journal st ++ [Decision (String c url) target o]
                 ∧ ((∀ e, o ≠ Failed e) →
                    dict_get target (image_cache st') = Some (String c url)))
    as Hfetch.
  { intros st0 w0 (o & Hj & Ho)%fetch_and_install_journal Hsame.
    exists o. rewrite <- Hsame. by split_and!. }
  destruct (url_to_filename st !! String c url) as [existing_name|];
    [|by eapply Hfetch].
  destruct (bool_decide (existing_name ≠ EmptyString)
            && bool_decide (existing_name ≠ target)); [|by eapply Hfetch].
  unfold rename_or_drop in Hrun.
  destruct (dict_del existing_name (image_cache st)) as [cache'|].
  - destruct (path_exists (asset existing_name) w).
    + injection Hrun as <- <-. exists (Renamed existing_name). simpl.
      split_and!; [done | done |]. intros _. apply dict_get_set_eq.
    + by eapply Hfetch.
  - by destruct (path_exists (asset existing_name) w).
Qed.

Lemma apart_initial (loaded : dict) (rest : list string) :
  NoDup (dict_keys loaded) → apart_invariant (initial_state loaded) rest.
Proof.
  intros Hkeys. unfold apart_invariant. simpl. split_and!.
  - done.
  - intros u n _ _. by apply invert_owner.
  - by intros d ?%elem_of_nil.
  - by intros d ?%elem_of_nil.
  - intros i k d1 d2 Hi. by rewrite lookup_nil in Hi.
Qed.

Lemma step_apart (it : item) (its : list item) (st st1 : state) (w w1 : world) :
  step it st w = (Ok st1, w1) →
  NoDup (filter (λ u, u ≠ EmptyString) (i_url <$> it :: its)) →
  apart_invariant st (i_url <$> it :: its) →
  apart_invariant st1 (i_url <$> its).
Proof.
  unfold step. rewrite fmap_cons, filter_cons.
  intros Hstep Hnd (Hkeys & Hindex & Hdone & Hbound & Hapart).
  destruct (decide (i_url it = EmptyString)) as [Hempty|Hnonempty].
  - unfold process_url in Hstep. rewrite Hempty in Hstep.
    injection Hstep as <- <-. split_and!; try done.
    + intros u n Hu Hin. apply Hindex; [done|]. by apply list_elem_of_further.
    + intros d Hd. destruct (Hdone d Hd) as [Hne Hnotin]. split; [done|].
      by apply not_elem_of_cons in Hnotin as [_ ?].
  - rewrite decide_True in Hnd by done. apply NoDup_cons in Hnd as [Hfresh Hnd].
    assert (i_url it ∉ i_url <$> its) as Hnew.
    { intros Hin. apply Hfresh. by apply list_elem_of_filter. }
    assert (∀ e, url_to_filename st !! i_url it = Some e →
                 dict_get e (image_cache st) = Some (i_url it)) as Hcurrent.
    { intros e. apply Hindex; [done|]. apply list_elem_of_here. }
    assert (∀ d, d ∈ journal st → d_url d ≠ i_url it) as Hother.
    { intros d Hd Heq. destruct (Hdone d Hd) as [_ Hnotin].
      apply Hnotin. rewrite Heq. apply list_elem_of_here. }
    destruct (process_url_journal _ _ _ _ _ _ _ _ Hstep Hnonempty)
      as (target & o & Hchoose & Hj & Ho).
    split_and!.
    + pose proof Hstep as Hchange.
      apply process_url_change in Hchange as [[_ ->]|(t & _ & Hchange)]; [done|].
      by eapply cache_change_NoDup.
    + intros u n Hu Hin Hn.
      assert (u ≠ i_url it) as Hne by (by intros ->).
      rewrite (process_url_index_others _ _ _ _ _ _ _ _ u Hstep Hne) in Hn.
      eapply process_url_cache_others; [exact Hstep | done | done |].
      apply Hindex; [done | | done]. by apply list_elem_of_further.
    + intros d. rewrite Hj. intros [Hd| ->%list_elem_of_singleton]%elem_of_app.
      * destruct (Hdone d Hd) as [Hne Hnotin]. split; [done|].
        by apply not_elem_of_cons in Hnotin as [_ ?].
      * by split.
    + intros d. rewrite Hj.
      intros [Hd| ->%list_elem_of_singleton]%elem_of_app Hinst.
      * eapply process_url_cache_others;
          [exact Hstep | done | by apply Hother | by apply Hbound].
      * by apply Ho.
    + intros i k d1 d2. rewrite Hj.
      intros [[Hi H1]|[Hi <-]]%lookup_snoc_Some [[Hk H2]|[Hk <-]]%lookup_snoc_Some
        Hlt Hinst; try lia.
      * by eapply Hapart.
      * assert (d1 ∈ journal st) as Hd1 by (by eapply list_elem_of_lookup_2).
        simpl. split; [by apply Hother|].
        intros Hsame. apply (Hother d1 Hd1).
        eapply choose_filename_owner; [exact Hchoose|].
        rewrite <- Hsame. by apply Hbound.
Qed.

Lemma run_items_apart (its : list item) :
  ∀ (st st' : state) (w w' : world),
    run_items its st w = (Ok st', w') →
    NoDup (filter (λ u, u ≠ EmptyString) (i_url <$> its)) →
    apart_invariant st (i_url <$> its) →
    apart_invariant st' [].
Proof.
  induction its as [|it its IH]; intros st st' w w'; simpl.
  - by intros [= <- <-].
  - destruct (step it st w) as [[st1|e] w1] eqn:Hstep; [|done].
    intros Hrun Hnd Hinv. eapply IH; [exact Hrun | |].
    + rewrite ?fmap_cons, filter_cons in Hnd.
      case_decide; [by apply NoDup_cons in Hnd as [_ ?] | done].
    + by eapply step_apart.
Qed.

Lemma NoDup_urls_take (its : list item) (k : nat) :
  NoDup (filter (λ u, u ≠ EmptyString) (i_url <$> its)) →
  NoDup (filter (λ u, u ≠ EmptyString) (i_url <$> take k its)).
Proof.
  rewrite <- (take_drop k its) at 1. rewrite fmap_app, filter_app.
  by intros [? _]%NoDup_app.
Qed.

(** C1, as the code has it.  Take a cache with distinct keys and a
    manifest in which no non-empty URL is listed twice, and stop the loop
    at any boundary.  The keys of the cache are still distinct; every
    name that a decision installed (skip, rename or download, not a failed
    fetch) is bound in the cache to the URL it was resolved for; and a
    decision that installed its name is followed only by decisions for
    other URLs whose resolved names differ from it.  So two distinct URLs
    never share a filename in the cache, and the names the resolver
    returns for them differ unless the fetch of the one processed first
    failed. *)
Theorem installed_names_differ (posters : list poster) (loaded : dict)
    (w : world) (k : nat) (st : state) (w' : world) :
  NoDup (dict_keys loaded) →
  NoDup (filter (λ u, u ≠ EmptyString) (i_url <$> work_items posters)) →
  run_items (take k (work_items posters)) (initial_state loaded) w = (Ok st, w') →
  NoDup (dict_keys (image_cache st))
  ∧ (∀ d, d ∈ journal st → installed d →
          dict_get (d_target d) (image_cache st) = Some (d_url d))
  ∧ (∀ i j d1 d2,
       journal st !! i = Some d1 → journal st !! j = Some d2 → i < j →
       installed d1 →
       d_url d1 ≠ d_url d2 ∧ d_target d1 ≠ d_target d2).
Proof.
  intros Hkeys Hurls Hrun.
  destruct (run_items_apart _ _ _ _ _ Hrun) as (Hk & _ & _ & Hbound & Hapart).
  - by apply NoDup_urls_take.
  - by apply apart_initial.
  - by split_and!.
Qed.

Lemma installed_names_differ_witness :
  ∃ st w',
    run_items
      (take 3 (work_items [Poster "Dup" ["http://x/a.jpg"];
                           Poster "Dup" ["http://x/b.jpg"; "http://x/c.png"]]))
      (initial_state [("Dup_1.jpg", "http://x/c.png")])
      (empty_world (always_ok ["body"])) = (Ok st, w')
    ∧ ∀ i j d1 d2,
        journal st !! i = Some d1 → journal st !! j = Some d2 → i < j →
        installed d1 →
        d_url d1 ≠ d_url d2 ∧ d_target d1 ≠ d_target d2.
Proof.
  destruct (run_items
      (take 3 (work_items [Poster "Dup" ["http://x/a.jpg"];
                           Poster "Dup" ["http://x/b.jpg"; "http://x/c.png"]]))
      (initial_state [("Dup_1.jpg", "http://x/c.png")])
      (empty_world (always_ok ["body"]))) as [[st|e] w'] eqn:Hrun.
  - exists st, w'. split; [reflexivity|].
    refine (proj2 (proj2 (installed_names_differ _ _ _ 3 st w' _ _ Hrun))).
    + apply (bool_decide_unpack _). by vm_compute.
    + apply (bool_decide_unpack _). by vm_compute.
  - vm_compute in Hrun. discriminate Hrun.
Defined.

(** ** The loop works inside the asset directory *)

Lemma json_dumps_nonempty (payload : dict) : json_dumps payload ≠ EmptyString.
Proof. by destruct payload. Qed.

(** [save_json] is two operations on the cache file itself; between them
    the file is empty. *)
Lemma save_json_steps (path : string) (payload : dict) (w : world) :
  history (save_json path payload w)
  = history w ++ [OpOpenW path; OpWrite path (json_dumps payload)]
  ∧ files (save_json path payload w) !! path = Some (json_dumps payload)
  ∧ replay [OpOpenW path] (files w) !! path = Some EmptyString.
Proof.
  unfold save_json, write_text. simpl. split_and!.
  - by rewrite <- app_assoc.
  - by rewrite lookup_alter_eq, lookup_insert_eq.
  - apply lookup_insert_eq.
Qed.













(** ** Where the code departs from its documentation *)

(** C7.  For the empty title and the URL [http://x/foo.jpg], whose path
    stem [foo] is a fine name, the deriver returns the base name [image]:
    [sanitize_title] has already replaced the empty cleaned title by its
    literal fallback, so the [or] of [filename_from_title] never reaches
    the stem ([filename_from_title_base] shows it for every input). *)
Theorem empty_title_skips_the_stem :
  path_stem (urlparse_path "http://x/foo.jpg") = "foo"
  ∧ sanitize_title "foo" = "foo"
  ∧ sanitize_title "" = "image"
  ∧ filename_from_title "" "http://x/foo.jpg" 0 1 = ("image", ".jpg").
Proof. split_and!; by vm_compute. Qed.

(** C4.  The cache holds [Old.jpg] for a URL whose asset is missing, the
    manifest lists that URL twice under the title [New], and the server
    answers 404.  The first iteration drops the stale entry from the cache
    and from the reserved set but leaves it in [url_to_filename]; its fetch
    fails and is reported.  The second iteration finds the stale name in
    [url_to_filename] again and deletes it from the cache a second time:
    [KeyError].  The run ends there, without summary and without writing
    the cache. *)
Theorem failed_fetch_after_stale_drop_aborts :
  let run := main (Some [Poster "New" ["http://x/a.jpg"];
                         Poster "New" ["http://x/a.jpg"]])
               [("Old.jpg", "http://x/a.jpg")]
               (empty_world (always_status 404)) in
  run.1 = Raise (KeyError "Old.jpg")
  ∧ history run.2 = replicate 3 (OpUnlink "assets/New.jpg.part")
  ∧ files run.2 !! IMAGE_CACHE_PATH = None.
Proof. split_and!; by vm_compute. Qed.

(** For contrast: when the same fetch is served, the same run completes. *)
Lemma served_fetch_after_stale_drop_completes :
  (main (Some [Poster "New" ["http://x/a.jpg"];
               Poster "New" ["http://x/a.jpg"]])
     [("Old.jpg", "http://x/a.jpg")]
     (empty_world (always_ok ["body"]))).1
  = Ok (Summary 1 0 1 1).
Proof. by vm_compute. Qed.

(** C5.  A run that starts with the cache file holding one entry and
    fetches a second image.  The cache file is written once, by the last
    two operations of the run, and no earlier operation touches it; but
    the write is not one step: after the first of the two operations the
    file on disk is empty, which is neither the text it held before the
    run nor the text the run writes. *)
Theorem cache_file_passes_through_empty :
  let loaded := [("Foo.jpg", "http://x/foo.jpg")] in
  let w := World {[ IMAGE_CACHE_PATH := json_dumps loaded;
                    "assets/Foo.jpg" := "img" ]}
             (always_ok ["body"]) 0 [] in
  let run := main (Some [Poster "Foo" ["http://x/foo.jpg"];
                         Poster "Bar" ["http://x/bar.jpg"]]) loaded w in
  ∃ before new_text,
    run.1 = Ok (Summary 1 0 1 2)
    ∧ history run.2
      = before ++ [OpOpenW IMAGE_CACHE_PATH; OpWrite IMAGE_CACHE_PATH new_text]
    ∧ Forall (λ op, IMAGE_CACHE_PATH ∉ op_targets op) before
    ∧ files run.2 !! IMAGE_CACHE_PATH = Some new_text
    ∧ replay (before ++ [OpOpenW IMAGE_CACHE_PATH]) (files w) !! IMAGE_CACHE_PATH
      = Some EmptyString
    ∧ EmptyString ≠ json_dumps loaded
    ∧ EmptyString ≠ new_text.
Proof.
  eexists [_; _; _], _. split_and!.
  - by vm_compute.
  - by vm_compute.
  - apply (bool_decide_unpack _). by vm_compute.
  - by vm_compute.
  - by vm_compute.
  - done.
  - done.
Qed.

(** ** The scenarios of the specification, run on the model *)

Example load_json_recovers (loads : string → option dict) :
  load_json loads IMAGE_CACHE_PATH (empty_world (always_status 404)) = []
  ∧ load_json loads IMAGE_CACHE_PATH
      (World {[ IMAGE_CACHE_PATH := "  " ]} (always_status 404) 0 []) = []
  ∧ load_json (λ _, None) IMAGE_CACHE_PATH
      (World {[ IMAGE_CACHE_PATH := "{oops" ]} (always_status 404) 0 []) = [].
Proof. split_and!; by vm_compute. Qed.

Example scenario_two_images :
  let run := main (Some [Poster "Test Poster" ["http://x/a.png"; "http://x/b.png"]])
               [] (empty_world (always_ok ["png"])) in
  run.1 = Ok (Summary 2 0 0 2)
  ∧ files run.2 !! "assets/Test_Poster_1.png" = Some "png"
  ∧ files run.2 !! "assets/Test_Poster_2.png" = Some "png"
  ∧ files run.2 !! IMAGE_CACHE_PATH
    = Some (json_dumps [("Test_Poster_1.png", "http://x/a.png");
                        ("Test_Poster_2.png", "http://x/b.png")]).
Proof. split_and!; by vm_compute. Qed.

Example scenario_stale_entry :
  let run := main (Some [Poster "Foo" ["http://x/foo.jpg"]])
               [("Foo.jpg", "http://x/foo.jpg")]
               (empty_world (always_ok ["jpg"])) in
  run.1 = Ok (Summary 1 0 0 1)
  ∧ files run.2 !! "assets/Foo.jpg" = Some "jpg"
  ∧ files run.2 !! IMAGE_CACHE_PATH
    = Some (json_dumps [("Foo.jpg", "http://x/foo.jpg")]).
Proof. split_and!; by vm_compute. Qed.

Example scenario_rename :
  let run := main (Some [Poster "New Name" ["http://x/foo.jpg"]])
               [("old_name.jpg", "http://x/foo.jpg")]
               (World {[ "assets/old_name.jpg" := "jpg" ]}
                  (always_status 404) 0 []) in
  run.1 = Ok (Summary 0 1 0 1)
  ∧ sent run.2 = 0
  ∧ files run.2 !! "assets/old_name.jpg" = None
  ∧ files run.2 !! "assets/New_Name.jpg" = Some "jpg"
  ∧ files run.2 !! IMAGE_CACHE_PATH
    = Some (json_dumps [("New_Name.jpg", "http://x/foo.jpg")]).
Proof. split_and!; by vm_compute. Qed.

Example scenario_transient_failure :
  let run := download_image "http://x/a.jpg" "assets/a.jpg" build_session
               default_retries
               (empty_world (λ _ t, if t <? 7 then Reply 503 [] true
                                    else Reply 200 ["whole "; "body"] true)) in
  run.1 = Ok tt
  ∧ sent run.2 = 8
  ∧ files run.2 !! "assets/a.jpg" = Some "whole body"
  ∧ files run.2 !! "assets/a.jpg.part" = None.
Proof. split_and!; by vm_compute. Qed.

Example deriver_examples :
  filename_from_title " a//b  c__ " "https://h.example/p/q.tar.gz?x=1#f" 1 1
  = ("a_b_c", ".gz")
  ∧ filename_from_title "Test Poster" "http://x/a.png" 0 2 = ("Test_Poster_1", ".png")
  ∧ filename_from_title "?" "http://x/noext" 0 1 = ("image", ".jpg")
  ∧ urlparse_path "https://h.example/p/q.tar.gz;v=1?x=1#f" = "/p/q.tar.gz"
  ∧ path_suffix "/a/b/.hidden" = ""
  ∧ path_suffix "/a/b/c." = ""
  ∧ path_stem "/a/b.x/" = "b".
Proof. split_and!; by vm_compute. Qed.

(** * Further properties of the code *)

(** ** What [sanitize_title] returns *)

Lemma str_forall_impl (P Q : ascii → bool) (s : string) :
  (∀ c, P c = true → Q c = true) → str_forall P s = true → str_forall Q s = true.
Proof.
  intros Himpl. induction s as [|c s IH]; simpl; [done|].
  intros [Hc Hs]%andb_true_iff. apply andb_true_iff. split; auto.
Qed.

Lemma lstrip_forall (P Q : ascii → bool) (s : string) :
  str_forall Q s = true → str_forall Q (lstrip P s) = true.
Proof.
  induction s as [|c s IH]; simpl; [done|].
  intros Hall. pose proof Hall as [Hc Hs]%andb_true_iff.
  destruct (P c); [by apply IH | done].
Qed.

Lemma rstrip_forall (P Q : ascii → bool) (s : string) :
  str_forall Q s = true → str_forall Q (rstrip P s) = true.
Proof.
  induction s as [|c s IH]; simpl; [done|].
  intros [Hc Hs]%andb_true_iff. specialize (IH Hs).
  destruct (rstrip P s) as [|c' r].
  - destruct (P c); simpl; [done | by rewrite Hc].
  - simpl in *. by rewrite Hc, IH.
Qed.

Lemma lstrip_starts (P : ascii → bool) (s : string) :
  starts_with P (lstrip P s) = false.
Proof.
  induction s as [|c s IH]; simpl; [done|].
  destruct (P c) eqn:Hc; [done | by simpl].
Qed.

Lemma rstrip_starts (P : ascii → bool) (s : string) :
  starts_with P s = false → starts_with P (rstrip P s) = false.
Proof.
  destruct s as [|c s]; simpl; [done|]. intros Hc.
  destruct (rstrip P s); [by rewrite Hc | done].
Qed.

Lemma rstrip_ends (P : ascii → bool) (s : string) :
  ends_with P (rstrip P s) = false.
Proof.
  induction s as [|c s IH]; simpl; [done|].
  destruct (rstrip P s) as [|c' r] eqn:Hr.
  - destruct (P c) eqn:Hc; [done | by simpl].
  - done.
Qed.

Lemma lstrip_no_adjacent (P Q : ascii → bool) (s : string) :
  no_adjacent Q s = true → no_adjacent Q (lstrip P s) = true.
Proof.
  induction s as [|c s IH]; simpl; [done|].
  intros Hall. pose proof Hall as [_ Hs]%andb_true_iff.
  destruct (P c); [by apply IH | done].
Qed.

Lemma rstrip_starts_weaker (P Q : ascii → bool) (s : string) :
  starts_with Q (rstrip P s) = true → starts_with Q s = true.
Proof.
  destruct s as [|c s]; simpl; [done|].
  destruct (rstrip P s); [by destruct (P c) | done].
Qed.

Lemma rstrip_no_adjacent (P Q : ascii → bool) (s : string) :
  no_adjacent Q s = true → no_adjacent Q (rstrip P s) = true.
Proof.
  induction s as [|c s IH]; simpl; [done|].
  intros [Hc Hs]%andb_true_iff. specialize (IH Hs).
  pose proof (rstrip_starts_weaker P Q s) as Hstart.
  destruct (rstrip P s) as [|c' r].
  - destruct (P c); simpl; [done | by rewrite andb_false_r].
  - apply andb_true_iff. split; [|done].
    destruct (Q c); [|done]. simpl in *.
    destruct (Q c') eqn:Hc'; [|done]. by rewrite Hstart in Hc.
Qed.

(** What a substitution leaves: the underscore, and the characters of the
    input outside the class. *)
Lemma sub_runs_from_forall (P R Q : ascii → bool) (s : string) (in_run : bool) :
  Q "_"%char = true →
  (∀ c, R c = true → P c = false → Q c = true) →
  str_forall R s = true →
  str_forall Q (sub_runs_from P in_run s) = true.
Proof.
  intros Hus Hkeep. revert in_run.
  induction s as [|c s IH]; intros in_run; simpl; [done|].
  intros [Hc Hs]%andb_true_iff.
  destruct (P c) eqn:HP.
  - destruct in_run; simpl; [by apply IH | rewrite Hus; by apply IH].
  - simpl. rewrite (Hkeep c Hc HP). by apply IH.
Qed.

(** After collapsing, underscores stand alone. *)
Lemma sub_runs_from_underscore (s : string) (in_run : bool) :
  no_adjacent (is_char "_") (sub_runs_from (is_char "_") in_run s) = true
  ∧ (in_run = true →
     starts_with (is_char "_") (sub_runs_from (is_char "_") in_run s) = false).
Proof.
  revert in_run. induction s as [|c s IH]; intros in_run; simpl; [done|].
  destruct (is_char "_" c) eqn:Hc.
  - destruct in_run.
    + apply IH.
    + destruct (IH true) as [Hadj Hstart]. split; [|done].
      simpl. by rewrite Hadj, (Hstart eq_refl).
  - destruct (IH false) as [Hadj _]. simpl. rewrite Hc, Hadj. by split.
Qed.

Lemma clean_name_str_or (s : string) :
  str_forall safe_char s = true →
  starts_with (is_char "_") s = false →
  ends_with (is_char "_") s = false →
  no_adjacent (is_char "_") s = true →
  clean_name (str_or s "image").
Proof.
  destruct s as [|c s]; [intros _ _ _ _; by vm_compute|].
  intros. by split_and!.
Qed.

Lemma sanitize_title_clean_parts (title : string) :
  clean_name (sanitize_title title).
Proof.
  unfold sanitize_title, sub_runs, strip. apply clean_name_str_or.
  - apply rstrip_forall, lstrip_forall.
    apply (sub_runs_from_forall _ safe_char); [done | by intros c -> | ].
    apply (sub_runs_from_forall _ (λ c, negb (is_space c)));
      [done | by intros c Hc Hi; unfold safe_char; rewrite Hc, Hi | ].
    apply (sub_runs_from_forall _ (λ _, true)); [done | by intros c _ -> |].
    by induction (rstrip is_space (lstrip is_space title)) as [|c s IH].
  - apply rstrip_starts, lstrip_starts.
  - apply rstrip_ends.
  - apply rstrip_no_adjacent, lstrip_no_adjacent, sub_runs_from_underscore.
Qed.

(** Whatever the title, [sanitize_title] returns a non-empty name without
    whitespace and without any of the characters [\ / : * ? < > |] and the
    double quote, in which no underscore is first, last or next to another
    underscore. *)
Theorem sanitize_title_clean (title : string) : clean_name (sanitize_title title).
Proof. apply sanitize_title_clean_parts. Qed.

Lemma lstrip_id (P : ascii → bool) (s : string) :
  starts_with P s = false → lstrip P s = s.
Proof. destruct s as [|c s]; simpl; [done|]. by intros ->. Qed.

Lemma rstrip_id (P : ascii → bool) (s : string) :
  ends_with P s = false → rstrip P s = s.
Proof.
  induction s as [|c s IH]; simpl; [done|].
  destruct s as [|c' s]; [by intros -> | ].
  intros Hend. rewrite (IH Hend). done.
Qed.

Lemma forall_not_starts_ends (P : ascii → bool) (s : string) :
  str_forall (λ c, negb (P c)) s = true →
  starts_with P s = false ∧ ends_with P s = false.
Proof.
  induction s as [|c s IH]; simpl; [done|].
  intros [Hc Hs]%andb_true_iff. apply negb_true_iff in Hc.
  split; [done|]. destruct s as [|c' s]; [done | by apply IH].
Qed.

Lemma sub_runs_from_id (P : ascii → bool) (s : string) (in_run : bool) :
  str_forall (λ c, negb (P c)) s = true → sub_runs_from P in_run s = s.
Proof.
  revert in_run. induction s as [|c s IH]; intros in_run; simpl; [done|].
  intros [Hc Hs]%andb_true_iff. apply negb_true_iff in Hc.
  rewrite Hc. by rewrite IH.
Qed.

(** Collapsing leaves lone underscores as they are. *)
Lemma sub_runs_from_underscore_id (s : string) (in_run : bool) :
  no_adjacent (is_char "_") s = true →
  (in_run = true → starts_with (is_char "_") s = false) →
  sub_runs_from (is_char "_") in_run s = s.
Proof.
  revert in_run. induction s as [|c s IH]; intros in_run; simpl; [done|].
  intros [Hc Hs]%andb_true_iff Hstart.
  destruct (is_char "_" c) eqn:Hus.
  - destruct in_run; [by specialize (Hstart eq_refl)|].
    apply bool_decide_eq_true in Hus as ->. f_equal. apply IH; [done|].
    intros _. simpl in Hc. by apply negb_true_iff in Hc.
  - f_equal. by apply IH.
Qed.

(** A clean name is what [sanitize_title] makes of itself. *)
Lemma sanitize_title_fixes_clean (s : string) :
  clean_name s → sanitize_title s = s.
Proof.
  intros (Hne & Hsafe & Hstart & Hend & Hadj).
  assert (str_forall (λ c, negb (is_space c)) s = true) as Hspace.
  { eapply str_forall_impl; [|exact Hsafe].
    unfold safe_char. by intros c [? _]%andb_true_iff. }
  assert (str_forall (λ c, negb (is_illegal c)) s = true) as Hillegal.
  { eapply str_forall_impl; [|exact Hsafe].
    unfold safe_char. by intros c [_ ?]%andb_true_iff. }
  destruct (forall_not_starts_ends is_space s Hspace) as [Hs1 Hs2].
  unfold sanitize_title, sub_runs, strip.
  rewrite (lstrip_id is_space s Hs1), (rstrip_id is_space s Hs2).
  rewrite (sub_runs_from_id is_space s false Hspace).
  rewrite (sub_runs_from_id is_illegal s false Hillegal).
  rewrite (sub_runs_from_underscore_id s false Hadj) by done.
  rewrite (lstrip_id _ s Hstart), (rstrip_id _ s Hend).
  by destruct s.
Qed.

(** [sanitize_title] is idempotent: a name it has returned comes back
    unchanged, so a title taken from an earlier file name derives the same
    name again. *)
Theorem sanitize_title_idempotent (title : string) :
  sanitize_title (sanitize_title title) = sanitize_title title.
Proof.
  destruct (sanitize_title_clean_parts title) as (Hne & Hsafe & Hstart & Hend & Hadj).
  apply sanitize_title_fixes_clean. by split_and!.
Qed.

Lemma lstrip_all (P : ascii → bool) (s : string) :
  str_forall P s = true → lstrip P s = EmptyString.
Proof.
  induction s as [|c s IH]; simpl; [done|].
  intros [-> Hs]%andb_true_iff. by apply IH.
Qed.

(** A title made of nothing but whitespace, replaced characters and
    underscores, the empty title among them, gets the fallback name. *)
Theorem sanitize_title_fallback (title : string) :
  str_forall separator_char title = true → sanitize_title title = "image".
Proof.
  intros Hsep. unfold sanitize_title, sub_runs, strip.
  rewrite (lstrip_all (is_char "_")); [done|].
  apply (sub_runs_from_forall _ (is_char "_")); [done | by intros c -> |].
  apply (sub_runs_from_forall _ (λ c, is_illegal c || is_char "_" c));
    [done | by intros c Hc HP; rewrite HP in Hc |].
  apply (sub_runs_from_forall _ separator_char);
    [done | by unfold separator_char; intros c Hc HP; rewrite HP in Hc |].
  by apply rstrip_forall, lstrip_forall.
Qed.

Lemma sanitize_title_fallback_witness :
  sanitize_title " :_?_  " = "image".
Proof. apply sanitize_title_fallback. by vm_compute. Defined.

(** ** What [filename_from_title] returns *)

(** The images of one poster get pairwise distinct base names: with more
    than one image the position is part of the name. *)
Theorem sibling_bases_differ (title url1 url2 : string) (i j total : nat) :
  1 < total → i ≠ j →
  (filename_from_title title url1 i total).1
  ≠ (filename_from_title title url2 j total).1.
Proof.
  intros Htotal Hij. rewrite !filename_from_title_base.
  apply Nat.ltb_lt in Htotal. rewrite Htotal. intros Heq.
  apply (inj (String.append _)) in Heq.
  apply (inj (String.append "_")) in Heq.
  apply (inj pretty) in Heq. lia.
Qed.

Lemma sibling_bases_differ_witness :
  (filename_from_title "Test Poster" "http://x/a.png" 0 2).1
  ≠ (filename_from_title "Test Poster" "http://x/a.png" 1 2).1.
Proof. apply sibling_bases_differ; lia. Defined.

Lemma str_forall_app (Q : ascii → bool) (a b : string) :
  str_forall Q (a +:+ b) = str_forall Q a && str_forall Q b.
Proof.
  induction a as [|c a IH]; [done|].
  rewrite app_cons. simpl. by rewrite IH, andb_assoc.
Qed.

Lemma str_forall_rev_app (Q : ascii → bool) (s acc : string) :
  str_forall Q (String.rev_app s acc) = str_forall Q s && str_forall Q acc.
Proof.
  revert acc. induction s as [|c s IH]; intros acc; simpl; [done|].
  rewrite IH. simpl. by destruct (Q c), (str_forall Q s).
Qed.

Lemma split_slash_parts (cur s : string) :
  str_forall not_slash cur = true →
  Forall (λ part, str_forall not_slash part = true) (split_slash cur s).
Proof.
  revert cur. induction s as [|c s IH]; intros cur Hcur; simpl.
  - apply Forall_singleton. unfold String.rev.
    by rewrite str_forall_rev_app, Hcur.
  - destruct (is_char "/" c) eqn:Hc.
    + apply Forall_cons. split; [|by apply IH].
      unfold String.rev. by rewrite str_forall_rev_app, Hcur.
    + apply IH. simpl. unfold not_slash at 1. by rewrite Hc.
Qed.

Lemma path_name_no_slash (p : string) :
  str_forall not_slash (path_name p) = true.
Proof.
  unfold path_name.
  destruct (last _) as [name|] eqn:Hlast; simpl; [|done].
  apply last_Some_elem_of, list_elem_of_filter in Hlast as [_ Hin].
  pose proof (split_slash_parts EmptyString p eq_refl) as Hparts.
  rewrite Forall_forall in Hparts. by apply Hparts.
Qed.

Lemma rsplit_dot_tail (Q : ascii → bool) (s a b : string) :
  rsplit_dot s = Some (a, b) →
  str_forall Q s = true →
  str_forall Q b = true ∧ starts_with (is_char ".") b = true.
Proof.
  revert a. induction s as [|c s IH]; intros a; simpl; [done|].
  intros Hsplit [Hc Hs]%andb_true_iff.
  destruct (rsplit_dot s) as [[a' b']|].
  - injection Hsplit as <- <-. by eapply IH.
  - destruct (is_char "." c) eqn:Hdot; [|done].
    injection Hsplit as <- <-. simpl. by rewrite Hc, Hs, Hdot.
Qed.

(** The extension is the default or a piece of the last path component:
    it starts with a dot, has something after the dot and holds no slash. *)
Lemma extension_shape (title url : string) (index total : nat) :
  ∃ c rest,
    (filename_from_title title url index total).2 = String "." (String c rest)
    ∧ str_forall not_slash (String c rest) = true.
Proof.
  unfold filename_from_title. simpl. unfold path_suffix.
  pose proof (path_name_no_slash (urlparse_path url)) as Hname.
  destruct (rsplit_dot (path_name (urlparse_path url))) as [[a b]|] eqn:Hsplit;
    [|by exists "j"%char, "pg"].
  destruct (rsplit_dot_tail not_slash _ _ _ Hsplit Hname) as [Hb _].
  destruct a as [|x a]; [by exists "j"%char, "pg"|].
  destruct b as [|d [|c rest]]; [by exists "j"%char, "pg"..|].
  exists c, rest. split; [done|]. simpl in Hb.
  by apply andb_true_iff in Hb as [_ ?].
Qed.

Lemma pretty_N_go_digits (Q : ascii → bool) (x : N) :
  (∀ d, Q (pretty_N_char d) = true) →
  ∀ s, str_forall Q s = true → str_forall Q (pretty_N_go x s) = true.
Proof.
  intros Hdigit. induction (N.lt_wf_0 x) as [x _ IH]; intros s Hs.
  destruct (decide (0 < x)%N) as [Hpos|Hzero].
  - rewrite pretty_N_go_step by done. apply IH; [by apply N.div_lt|].
    simpl. by rewrite Hdigit, Hs.
  - assert (x = 0%N) as -> by lia. by rewrite pretty_N_go_0.
Qed.

(** The decimal numeral of a number holds digits only. *)
Lemma pretty_nat_digits (n : nat) : str_forall is_digit (pretty n) = true.
Proof.
  unfold pretty, pretty_nat, pretty, pretty_N.
  case_decide; [done|]. apply pretty_N_go_digits; [|done].
  intros d. unfold pretty_N_char. by repeat case_match.
Qed.

Lemma choose_filename_loop_shape (base ext url : string) (cache : dict)
    (reserved : gset string) (fuel : nat) :
  ∀ (candidate target : string) (counter : nat),
    choose_filename_loop fuel base ext url cache reserved candidate counter
    = Some target →
    target = candidate ∨ ∃ k, counter ≤ k ∧ target = numbered base ext k.
Proof.
  induction fuel as [|fuel IH]; intros candidate target counter; simpl; [done|].
  destruct (conflict_cache candidate url cache
            || conflict_reserved candidate cache reserved).
  - intros [->|(k & Hk & ->)]%IH; right.
    + by exists counter.
    + exists k. split; [lia | done].
  - intros [= <-]. by left.
Qed.

(** Every name the resolver returns for what the deriver derived is free
    of slashes: the asset path built from it lies directly inside the
    asset directory, whatever the title and the URL are. *)
Theorem resolved_name_has_no_slash (title url : string) (index total : nat)
    (cache : dict) (reserved : gset string) (target : string) :
  choose_filename (filename_from_title title url index total).1
    (filename_from_title title url index total).2 url cache reserved
  = Some target →
  str_forall not_slash target = true.
Proof.
  intros Hchoose.
  assert (str_forall not_slash (filename_from_title title url index total).1
          = true) as Hbase.
  { rewrite filename_from_title_base.
    assert (str_forall not_slash (sanitize_title title) = true) as Htitle.
    { destruct (sanitize_title_clean_parts title) as (_ & Hsafe & _).
      eapply str_forall_impl; [|exact Hsafe].
      unfold safe_char, not_slash, is_illegal. intros c [_ Hc]%andb_true_iff.
      apply negb_true_iff in Hc. apply negb_true_iff.
      by destruct (is_char "\" c), (is_char "/" c). }
    destruct (1 <? total); [|done].
    rewrite !str_forall_app, Htitle. simpl.
    eapply str_forall_impl; [|apply pretty_nat_digits].
    intros c Hc. unfold not_slash, is_char. apply negb_true_iff.
    apply bool_decide_eq_false. intros ->. by vm_compute in Hc. }
  destruct (extension_shape title url index total) as (c & rest & Hext & Hrest).
  assert (str_forall not_slash (filename_from_title title url index total).2
          = true) as Hsuffix.
  { rewrite Hext. simpl. simpl in Hrest. by rewrite Hrest. }
  apply choose_filename_loop_shape in Hchoose as [->|(k & _ & ->)].
  - by rewrite str_forall_app, Hbase, Hsuffix.
  - unfold numbered. rewrite !str_forall_app, Hbase, Hsuffix. simpl.
    rewrite andb_true_r.
    eapply str_forall_impl; [|apply pretty_nat_digits].
    intros c' Hc. unfold not_slash, is_char. apply negb_true_iff.
    apply bool_decide_eq_false. intros ->. by vm_compute in Hc.
Qed.

Lemma resolved_name_has_no_slash_witness :
  str_forall not_slash "a_b_c_2.gz" = true.
Proof.
  apply (resolved_name_has_no_slash " a//b  c__ "
           "https://h.example/p/../q.tar.gz?x=/1#f" 0 1
           [("a_b_c.gz", "http://other/")] ∅).
  by vm_compute.
Defined.

(** ** What [choose_filename] returns *)

(** The docstring's first case: a plain name that the cache already binds
    to the URL is reused, whatever else is cached or reserved. *)
Theorem choose_filename_reuses (base ext url : string) (cache : dict)
    (reserved : gset string) :
  dict_get (base +:+ ext) cache = Some url →
  choose_filename base ext url cache reserved = Some (base +:+ ext).
Proof.
  intros Hget. apply choose_filename_first.
  unfold has_conflict, conflict_cache, conflict_reserved, dict_mem.
  rewrite Hget, bool_decide_eq_false_2 by (by intros ?). simpl.
  by rewrite andb_false_r.
Qed.

Lemma choose_filename_reuses_witness :
  choose_filename "Dup" ".jpg" "http://x/a.jpg"
    [("Other.jpg", "http://x/b.jpg"); ("Dup.jpg", "http://x/a.jpg")]
    {[ "Dup.jpg"; "Other.jpg"; "Dup_2.jpg" ]}
  = Some "Dup.jpg".
Proof. apply choose_filename_reuses. reflexivity. Defined.

Lemma choose_filename_loop_first_free (base ext url : string) (cache : dict)
    (reserved : gset string) (fuel : nat) :
  ∀ (candidate target : string) (counter : nat),
    choose_filename_loop fuel base ext url cache reserved candidate counter
    = Some target →
    has_conflict target url cache reserved = false
    ∧ (target = candidate
       ∨ ∃ k, counter ≤ k
              ∧ target = numbered base ext k
              ∧ has_conflict candidate url cache reserved = true
              ∧ ∀ j, counter ≤ j < k →
                     has_conflict (numbered base ext j) url cache reserved = true).
Proof.
  induction fuel as [|fuel IH]; intros candidate target counter; simpl; [done|].
  fold (has_conflict candidate url cache reserved).
  destruct (has_conflict candidate url cache reserved) eqn:Hconf.
  - intros [Hfree [->|(k & Hk & -> & Hfirst & Hbefore)]]%IH;
      (split; [done|]); right.
    + exists counter. split_and!; [done | done | done |]. intros j Hj. lia.
    + exists k. split_and!; [lia | done | done |].
      intros j Hj. destruct (decide (j = counter)) as [->|Hne]; [done|].
      apply Hbefore. lia.
  - intros [= <-]. split; [done | by left].
Qed.

(** The name returned is the first candidate without conflict, in the
    order: the plain name, then the names numbered 2, 3, ...  So the
    counter is the least one that works, and the same cache and reserved
    set always give the same name. *)
Theorem choose_filename_first_free (base ext url target : string) (cache : dict)
    (reserved : gset string) :
  choose_filename base ext url cache reserved = Some target →
  has_conflict target url cache reserved = false
  ∧ (target = base +:+ ext
     ∨ ∃ k, 2 ≤ k
            ∧ target = numbered base ext k
            ∧ has_conflict (base +:+ ext) url cache reserved = true
            ∧ ∀ j, 2 ≤ j < k →
                   has_conflict (numbered base ext j) url cache reserved = true).
Proof. apply choose_filename_loop_first_free. Qed.

Lemma choose_filename_first_free_witness :
  has_conflict "Dup_4.jpg" "http://x/d.jpg"
    [("Dup.jpg", "http://x/a.jpg"); ("Dup_2.jpg", "http://x/b.jpg")]
    {[ "Dup.jpg"; "Dup_2.jpg"; "Dup_3.jpg" ]} = false.
Proof.
  apply (choose_filename_first_free "Dup" ".jpg" "http://x/d.jpg" "Dup_4.jpg").
  by vm_compute.
Defined.

(** Inside [main] the reserved set never decides anything: at every loop
    boundary it holds exactly the keys of the cache, so the second test of
    the resolver, reserved but not cached, is false for every candidate
    and only the cache test can reject a name. *)
Theorem reserved_test_never_fires (posters : list poster) (loaded : dict)
    (w : world) (k : nat) (st : state) (w' : world) (candidate : string) :
  run_items (take k (work_items posters)) (initial_state loaded) w = (Ok st, w') →
  conflict_reserved candidate (image_cache st) (reserved_names st) = false.
Proof.
  intros Hrun. unfold conflict_reserved.
  destruct (dict_mem candidate (image_cache st)) eqn:Hmem;
    [by rewrite andb_false_r|].
  rewrite bool_decide_eq_false_2; [done|]. intros Hin.
  apply (run_items_agree _ _ _ _ _ Hrun (agree_initial loaded)) in Hin.
  apply dict_mem_keys in Hin. congruence.
Qed.

Lemma reserved_test_never_fires_witness :
  ∃ st w',
    run_items
      (take 2 (work_items [Poster "Dup" ["http://x/a.jpg"; "http://x/b.jpg"]]))
      (initial_state [("Dup_2.jpg", "http://x/c.jpg")])
      (empty_world (always_status 404)) = (Ok st, w')
    ∧ conflict_reserved "Dup_1.jpg" (image_cache st) (reserved_names st) = false.
Proof.
  destruct (run_items
      (take 2 (work_items [Poster "Dup" ["http://x/a.jpg"; "http://x/b.jpg"]]))
      (initial_state [("Dup_2.jpg", "http://x/c.jpg")])
      (empty_world (always_status 404))) as [[st|e] w'] eqn:Hrun.
  - exists st, w'. split; [reflexivity|].
    exact (reserved_test_never_fires _ _ _ 2 st w' "Dup_1.jpg" Hrun).
  - vm_compute in Hrun. discriminate Hrun.
Defined.

(** ** How many requests a download costs *)

Lemma write_chunks_sent (temp : string) (chunks : list string) (w : world) :
  sent (write_chunks temp chunks w) = sent w.
Proof.
  unfold write_chunks. revert w.
  induction chunks as [|chunk chunks IH]; intros w; simpl; [done|].
  destruct chunk; by rewrite IH.
Qed.




(** ** The counters account for every URL *)










(** ** Entries of URLs outside the manifest *)

Lemma fetch_and_install_index_self (url target : string) (st st' : state)
    (w w' : world) :
  fetch_and_install url target st w = (Ok st', w') →
  url_to_filename st' !! url = url_to_filename st !! url
  ∨ url_to_filename st' !! url = Some target.
Proof.
  intros [->| ->]%fetch_and_install_index; [by left|].
  right. apply lookup_insert_eq.
Qed.

(** An iteration leaves the index entry of its own URL alone or points it
    at the name the resolver returned. *)
Lemma process_url_index_self (poster_title : string) (total idx : nat)
    (url : string) (st st' : state) (w w' : world) :
  process_url poster_title total idx url st w = (Ok st', w') →
  url_to_filename st' !! url = url_to_filename st !! url
  ∨ ∃ target,
      choose_filename (filename_from_title poster_title url idx total).1
        (filename_from_title poster_title url idx total).2 url
        (image_cache st) (reserved_names st) = Some target
      ∧ url_to_filename st' !! url = Some target.
Proof.
  unfold process_url. destruct url as [|c url]; [intros [= <- <-]; by left|].
  destruct (filename_from_title poster_title (String c url) idx total)
    as [base ext]. simpl.
  destruct (choose_filename base ext (String c url) (image_cache st)
              (reserved_names st)) as [target|]; [|done].
  destruct (bool_decide (dict_get target (image_cache st) = Some (String c url))
            && path_exists (asset target) w).
  { intros [= <- <-]. by left. }
  assert (∀ st0 w0,
            fetch_and_install (String c url) target st0 w0 = (Ok st', w') →
            url_to_filename st0 = url_to_filename st →
            url_to_filename st' !! String c url
            = url_to_filename st !! String c url
            ∨ ∃ t, Some target = Some t
                   ∧ url_to_filename st' !! String c url = Some t) as Hfetch.
  { intros st0 w0 [Hsame|Hnew]%fetch_and_install_index_self Heq.
    - left. by rewrite Hsame, Heq.
    - right. by exists target. }
  destruct (url_to_filename st !! String c url) as [existing_name|] eqn:Hex;
    [|intros Hrun; by eapply Hfetch].
  destruct (bool_decide (existing_name ≠ EmptyString)
            && bool_decide (existing_name ≠ target));
    [|intros Hrun; by eapply Hfetch].
  unfold rename_or_drop.
  destruct (dict_del existing_name (image_cache st)) as [cache'|].
  - destruct (path_exists (asset existing_name) w).
    + intros [= <- <-]. right. exists target. simpl.
      by rewrite lookup_insert_eq.
    + intros Hrun. by eapply Hfetch.
  - by destruct (path_exists (asset existing_name) w).
Qed.

(** An iteration for [url] keeps the cache entry of another URL, unless
    the index holds that very name for [url]. *)
Lemma process_url_keeps (poster_title : string) (total idx : nat)
    (url : string) (st st' : state) (w w' : world) (u n : string) :
  process_url poster_title total idx url st w = (Ok st', w') →
  u ≠ url →
  dict_get n (image_cache st) = Some u →
  url_to_filename st !! url ≠ Some n →
  dict_get n (image_cache st') = Some u.
Proof.
  intros Hrun Hne Hn Hindex.
  unfold process_url in Hrun. destruct url as [|c url].
  { by injection Hrun as <- <-. }
  destruct (filename_from_title poster_title (String c url) idx total)
    as [base ext].
  destruct (choose_filename base ext (String c url) (image_cache st)
              (reserved_names st)) as [target|] eqn:Hchoose; [|done].
  assert (target ≠ n) as Htarget.
  { intros ->. apply Hne. by eapply choose_filename_owner. }
  destruct (bool_decide (dict_get target (image_cache st) = Some (String c url))
            && path_exists (asset target) w).
  { by injection Hrun as <- <-. }
  assert (∀ st0 st1 w0 w1,
            fetch_and_install (String c url) target st0 w0 = (Ok st1, w1) →
            dict_get n (image_cache st0) = Some u →
            dict_get n (image_cache st1) = Some u) as Hfetch.
  { intros st0 st1 w0 w1 [->| ->]%fetch_and_install_change Hn0; [done|].
    by rewrite dict_get_set_ne. }
  destruct (url_to_filename st !! String c url) as [existing_name|] eqn:Hex;
    [|by eapply Hfetch].
  destruct (bool_decide (existing_name ≠ EmptyString)
            && bool_decide (existing_name ≠ target)); [|by eapply Hfetch].
  assert (existing_name ≠ n) as Hexisting by congruence.
  unfold rename_or_drop in Hrun.
  destruct (dict_del existing_name (image_cache st)) as [cache'|] eqn:Hdel.
  - apply dict_del_Some in Hdel as [-> _].
    destruct (path_exists (asset existing_name) w).
    + injection Hrun as <- <-. simpl.
      by rewrite dict_get_set_ne, dict_get_remove_ne.
    + eapply Hfetch; [exact Hrun|]. simpl. by rewrite dict_get_remove_ne.
  - by destruct (path_exists (asset existing_name) w).
Qed.

Lemma run_items_keeps_unlisted (its : list item) (f u : string) :
  ∀ (st st' : state) (w w' : world),
    run_items its st w = (Ok st', w') →
    u ∉ i_url <$> its →
    dict_get f (image_cache st) = Some u →
    (∀ url, url ≠ u → url_to_filename st !! url ≠ Some f) →
    dict_get f (image_cache st') = Some u.
Proof.
  induction its as [|it its IH]; intros st st' w w'; simpl.
  - by intros [= <- <-].
  - destruct (step it st w) as [[st1|e] w1] eqn:Hstep; [|done].
    unfold step in Hstep. rewrite ?fmap_cons.
    intros Hrun [Hne Hnotin]%not_elem_of_cons Hf Hindex.
    eapply IH; [exact Hrun | done | |].
    + eapply process_url_keeps; [exact Hstep | done | done | by apply Hindex].
    + intros url Hurl. destruct (decide (url = i_url it)) as [->|Hother].
      * destruct (process_url_index_self _ _ _ _ _ _ _ _ Hstep)
          as [->|(target & Hchoose & ->)]; [by apply Hindex|].
        intros [= ->]. apply Hurl.
        symmetry. by eapply choose_filename_owner.
      * rewrite (process_url_index_others _ _ _ _ _ _ _ _ url Hstep Hother).
        by apply Hindex.
Qed.

(** The loop never prunes: an entry the loaded cache holds for a URL that
    the manifest does not list is still in the cache, bound to the same
    URL, when the loop has completed. *)
Theorem unlisted_entries_survive (posters : list poster) (loaded : dict)
    (w : world) (st : state) (w' : world) (f u : string) :
  NoDup (dict_keys loaded) →
  dict_get f loaded = Some u →
  u ∉ i_url <$> work_items posters →
  process_posters posters (initial_state loaded) w = (Ok st, w') →
  dict_get f (image_cache st) = Some u.
Proof.
  intros Hkeys Hf Hunlisted. rewrite process_posters_run_items. intros Hrun.
  eapply run_items_keeps_unlisted; [exact Hrun | done | done |].
  intros url Hurl Hindex. apply invert_owner in Hindex; [|done].
  simpl in Hindex. congruence.
Qed.

Lemma unlisted_entries_survive_witness :
  ∃ st w',
    process_posters [Poster "Gone" ["http://x/new.jpg"]]
      (initial_state [("Gone.jpg", "http://x/gone.jpg")])
      (empty_world (always_ok ["body"])) = (Ok st, w')
    ∧ dict_get "Gone.jpg" (image_cache st) = Some "http://x/gone.jpg".
Proof.
  destruct (process_posters [Poster "Gone" ["http://x/new.jpg"]]
      (initial_state [("Gone.jpg", "http://x/gone.jpg")])
      (empty_world (always_ok ["body"]))) as [[st|e] w'] eqn:Hrun.
  - exists st, w'. split; [reflexivity|].
    apply (unlisted_entries_survive [Poster "Gone" ["http://x/new.jpg"]]
             [("Gone.jpg", "http://x/gone.jpg")]
             (empty_world (always_ok ["body"])) st w').
    + apply (bool_decide_unpack _). by vm_compute.
    + reflexivity.
    + apply (bool_decide_unpack _). by vm_compute.
    + exact Hrun.
  - vm_compute in Hrun. discriminate Hrun.
Defined.

(** ** The rename and stale-entry branches *)

Lemma asset_inj (a b : string) : asset a = asset b → a = b.
Proof.
  unfold asset. intros H.
  apply (inj (String.append ASSETS_DIR)) in H.
  by apply (inj (String.append "/")) in H.
Qed.

(** The URL is indexed under another name whose asset is on disk, and the
    skip test fails: the asset is moved to the resolved name by one
    rename, without any request; the cache drops the old name and binds
    the new one; the iteration counts as a rename. *)
Theorem rename_moves_the_asset (poster_title : string) (total idx : nat)
    (url target old content : string) (st : state) (w : world) :
  url ≠ EmptyString →
  choose_filename (filename_from_title poster_title url idx total).1
    (filename_from_title poster_title url idx total).2 url
    (image_cache st) (reserved_names st) = Some target →
  dict_get target (image_cache st) ≠ Some url
  ∨ files w !! asset target = None →
  url_to_filename st !! url = Some old →
  old ≠ EmptyString →
  old ≠ target →
  is_Some (dict_get old (image_cache st)) →
  files w !! asset old = Some content →
  ∃ st',
    process_url poster_title total idx url st w
    = (Ok st', fs_do (OpReplace (asset old) (asset target)) w)
    ∧ image_cache st' = dict_set target url (dict_remove old (image_cache st))
    ∧ dict_get target (image_cache st') = Some url
    ∧ dict_get old (image_cache st') = None
    ∧ files (fs_do (OpReplace (asset old) (asset target)) w) !! asset target
      = Some content
    ∧ files (fs_do (OpReplace (asset old) (asset target)) w) !! asset old = None
    ∧ (downloaded st', renamed st', skipped st')
      = (downloaded st, S (renamed st), skipped st).
Proof.
  intros Hurl Hchoose Hnoskip Hindex Hold Hne [owner Hcached] Hfile.
  unfold process_url. destruct url as [|c url]; [done|].
  destruct (filename_from_title poster_title (String c url) idx total)
    as [base ext]. simpl in Hchoose. rewrite Hchoose.
  assert (bool_decide (dict_get target (image_cache st) = Some (String c url))
          && path_exists (asset target) w = false) as ->.
  { unfold path_exists. destruct Hnoskip as [Hother| ->].
    - by rewrite bool_decide_eq_false_2.
    - apply andb_false_r. }
  rewrite Hindex, !bool_decide_eq_true_2 by done. simpl.
  unfold rename_or_drop, path_exists, dict_del, dict_mem.
  rewrite Hfile, Hcached. eexists. split; [reflexivity|]. simpl.
  assert (asset old ≠ asset target) as Hpaths by (by intros ?%asset_inj).
  split_and!; try done.
  - apply dict_get_set_eq.
  - by rewrite dict_get_set_ne, dict_get_remove_eq.
  - apply lookup_insert_eq.
  - rewrite lookup_insert_ne by done. apply lookup_delete_eq.
Qed.

Lemma rename_moves_the_asset_witness :
  ∃ st',
    process_url "New Name" 1 0 "http://x/foo.jpg"
      (initial_state [("old_name.jpg", "http://x/foo.jpg")])
      (World {[ "assets/old_name.jpg" := "jpg" ]} (always_status 404) 0 [])
    = (Ok st',
       fs_do (OpReplace (asset "old_name.jpg") (asset "New_Name.jpg"))
         (World {[ "assets/old_name.jpg" := "jpg" ]} (always_status 404) 0 []))
    ∧ image_cache st' = [("New_Name.jpg", "http://x/foo.jpg")].
Proof.
  destruct (rename_moves_the_asset "New Name" 1 0 "http://x/foo.jpg"
              "New_Name.jpg" "old_name.jpg" "jpg"
              (initial_state [("old_name.jpg", "http://x/foo.jpg")])
              (World {[ "assets/old_name.jpg" := "jpg" ]}
                 (always_status 404) 0 []))
    as (st' & Hrun & Hcache & _).
  - discriminate.
  - by vm_compute.
  - left. by vm_compute.
  - by vm_compute.
  - discriminate.
  - discriminate.
  - eexists. by vm_compute.
  - by vm_compute.
  - exists st'. split; [exact Hrun|]. rewrite Hcache. by vm_compute.
Defined.

Lemma try_download_served_files (url destination : string) (s : session)
    (w : world) (status : nat) (chunks : list string) :
  net w url (sent w) = Reply status chunks true →
  status ∉ status_forcelist s →
  is_error_status status = false →
  ∃ w',
    try_download url destination s w = (Ok tt, w')
    ∧ sent w' = S (sent w)
    ∧ files w' !! destination = Some (body_text chunks)
    ∧ ∀ p, p ≠ destination → p ≠ temp_path destination →
           files w' !! p = files w !! p.
Proof.
  intros Hnet Hforced Herr. unfold try_download, session_get.
  rewrite (send_with_retry_final _ _ _ _ _ _ _ Hnet Hforced). simpl.
  rewrite Herr. eexists. split; [done|].
  destruct (write_chunks_spec (temp_path destination) chunks
              (fs_do (OpOpenW (temp_path destination)) (request_sent w))
              EmptyString) as [Htouch Hbody].
  { simpl. apply lookup_insert_eq. }
  rewrite app_nil in Hbody. simpl. rewrite Hbody, write_chunks_sent. simpl.
  split_and!; [done | apply lookup_insert_eq |].
  intros p Hp1 Hp2. rewrite lookup_insert_ne, lookup_delete_ne by done.
  rewrite (touches_only_lookup _ p _ _ Htouch) by done.
  simpl. by rewrite lookup_insert_ne.
Qed.

(** The URL is indexed under another name whose asset is missing, and the
    server serves the request: the stale name leaves the cache and the
    reserved set, the image is fetched once under the resolved name, and
    the cache binds that name to the URL. *)
Theorem stale_entry_is_refetched (poster_title : string) (total idx : nat)
    (url target old : string) (st : state) (w : world) (status : nat)
    (chunks : list string) :
  url ≠ EmptyString →
  choose_filename (filename_from_title poster_title url idx total).1
    (filename_from_title poster_title url idx total).2 url
    (image_cache st) (reserved_names st) = Some target →
  dict_get target (image_cache st) ≠ Some url
  ∨ files w !! asset target = None →
  url_to_filename st !! url = Some old →
  old ≠ EmptyString →
  old ≠ target →
  is_Some (dict_get old (image_cache st)) →
  files w !! asset old = None →
  net w url (sent w) = Reply status chunks true →
  status ∉ status_forcelist build_session →
  is_error_status status = false →
  ∃ st' w',
    process_url poster_title total idx url st w = (Ok st', w')
    ∧ image_cache st' = dict_set target url (dict_remove old (image_cache st))
    ∧ dict_get target (image_cache st') = Some url
    ∧ dict_get old (image_cache st') = None
    ∧ (old ∉ reserved_names st')
    ∧ files w' !! asset target = Some (body_text chunks)
    ∧ sent w' = S (sent w)
    ∧ (downloaded st', renamed st', skipped st')
      = (S (downloaded st), renamed st, skipped st).
Proof.
  intros Hurl Hchoose Hnoskip Hindex Hold Hne [owner Hcached] Hfile
    Hnet Hforced Herr.
  unfold process_url. destruct url as [|c url]; [done|].
  destruct (filename_from_title poster_title (String c url) idx total)
    as [base ext]. simpl in Hchoose. rewrite Hchoose.
  assert (bool_decide (dict_get target (image_cache st) = Some (String c url))
          && path_exists (asset target) w = false) as ->.
  { unfold path_exists. destruct Hnoskip as [Hother| ->].
    - by rewrite bool_decide_eq_false_2.
    - apply andb_false_r. }
  rewrite Hindex, !bool_decide_eq_true_2 by done. simpl.
  unfold rename_or_drop, path_exists, dict_del, dict_mem.
  rewrite Hfile, Hcached. unfold fetch_and_install, download_image. simpl.
  destruct (try_download_served_files (String c url) (asset target)
              build_session w status chunks)
    as (w' & -> & Hsent & Hbody & _); try done.
  eexists _, w'. split; [reflexivity|]. simpl. split_and!; try done.
  - apply dict_get_set_eq.
  - by rewrite dict_get_set_ne, dict_get_remove_eq.
  - set_solver.
Qed.

Lemma stale_entry_is_refetched_witness :
  ∃ st' w',
    process_url "New Name" 1 0 "http://x/foo.jpg"
      (initial_state [("old_name.jpg", "http://x/foo.jpg")])
      (empty_world (always_ok ["body"])) = (Ok st', w')
    ∧ image_cache st' = [("New_Name.jpg", "http://x/foo.jpg")]
    ∧ files w' !! "assets/New_Name.jpg" = Some "body".
Proof.
  destruct (stale_entry_is_refetched "New Name" 1 0 "http://x/foo.jpg"
              "New_Name.jpg" "old_name.jpg"
              (initial_state [("old_name.jpg", "http://x/foo.jpg")])
              (empty_world (always_ok ["body"])) 200 ["body"])
    as (st' & w' & Hrun & Hcache & _ & _ & _ & Hfile & _).
  - discriminate.
  - by vm_compute.
  - left. by vm_compute.
  - by vm_compute.
  - discriminate.
  - discriminate.
  - eexists. by vm_compute.
  - by vm_compute.
  - reflexivity.
  - apply (bool_decide_unpack _). by vm_compute.
  - reflexivity.
  - exists st', w'. split; [exact Hrun|]. split; [|exact Hfile].
    rewrite Hcache. by vm_compute.
Defined.

(** ** Instances of the run-level properties *)




Lemma cached_names_keep_their_url_witness :
  ∃ st' w',
    step (Item "Dup" 1 0 "http://x/2.jpg")
      (initial_state [("Dup.jpg", "http://x/1.jpg")])
      (empty_world (always_ok ["body"])) = (Ok st', w')
    ∧ ∀ f u, dict_get f (image_cache st') = Some u →
             dict_get f [("Dup.jpg", "http://x/1.jpg")] = Some u
             ∨ (dict_get f [("Dup.jpg", "http://x/1.jpg")] = None
                ∧ u = "http://x/2.jpg").
Proof.
  destruct (step (Item "Dup" 1 0 "http://x/2.jpg")
              (initial_state [("Dup.jpg", "http://x/1.jpg")])
              (empty_world (always_ok ["body"]))) as [[st'|e] w'] eqn:Hrun.
  - exists st', w'. split; [reflexivity|].
    exact (proj1 (proj2 (cached_names_keep_their_url _ _ _ _ _ Hrun))).
  - vm_compute in Hrun. discriminate Hrun.
Defined.

(** ** The category summary *)

Lemma ascii_compare_lt_trans (a b c : ascii) :
  Ascii.compare a b = Lt → Ascii.compare b c = Lt → Ascii.compare a c = Lt.
Proof.
  unfold Ascii.compare. rewrite !N.compare_lt_iff. lia.
Qed.

Lemma string_compare_lt_trans (a b c : string) :
  String.compare a b = Lt → String.compare b c = Lt → String.compare a c = Lt.
Proof.
  revert b c. induction a as [|x a IH]; intros [|y b] [|z c]; simpl; try done.
  destruct (Ascii.compare x y) eqn:Hxy; [|clear IH|done].
  - apply Ascii.compare_eq_iff in Hxy as ->.
    destruct (Ascii.compare y z); [apply IH | done | done].
  - destruct (Ascii.compare y z) eqn:Hyz; [| |done].
    + apply Ascii.compare_eq_iff in Hyz as <-. by rewrite Hxy.
    + by rewrite (ascii_compare_lt_trans _ _ _ Hxy Hyz).
Qed.

Lemma string_leb_spec (a b : string) :
  String.leb a b = true ↔ String.ltb a b = true ∨ a = b.
Proof.
  unfold String.leb, String.ltb.
  destruct (String.compare a b) eqn:Hab.
  - apply String.compare_eq_iff in Hab. naive_solver.
  - naive_solver.
  - split; [done|]. intros [?| ->]; [done|].
    pose proof (String.compare_antisym b b) as Hrefl.
    rewrite Hab in Hrefl. done.
Qed.

Lemma string_ltb_trans (a b c : string) :
  String.ltb a b = true → String.ltb b c = true → String.ltb a c = true.
Proof.
  unfold String.ltb.
  destruct (String.compare a b) eqn:Hab; try done.
  destruct (String.compare b c) eqn:Hbc; try done.
  by rewrite (string_compare_lt_trans _ _ _ Hab Hbc).
Qed.

Lemma string_leb_trans (a b c : string) :
  String.leb a b = true → String.leb b c = true → String.leb a c = true.
Proof.
  rewrite !string_leb_spec. intros [Hab| ->] [Hbc| ->]; eauto.
  left. by eapply string_ltb_trans.
Qed.

#[local] Instance key_le_total : Total get_category.key_le.
Proof.
  intros [n1 c1] [n2 c2]. unfold get_category.key_le, get_category.tuple_leb.
  simpl. destruct (String.leb_total n1 n2) as [H|H]; rewrite H.
  - destruct (Z.ltb_spec (- Z.of_nat c1) (- Z.of_nat c2)); [by left|].
    destruct (Z.eqb_spec (- Z.of_nat c1) (- Z.of_nat c2)); [by left|].
    right. apply orb_true_iff. left. apply Z.ltb_lt. lia.
  - destruct (Z.ltb_spec (- Z.of_nat c2) (- Z.of_nat c1)); [by right|].
    destruct (Z.eqb_spec (- Z.of_nat c2) (- Z.of_nat c1)); [by right|].
    left. apply orb_true_iff. left. apply Z.ltb_lt. lia.
Qed.

Lemma key_le_spec (a b : string * nat) :
  get_category.key_le a b
  ↔ b.2 < a.2 ∨ (a.2 = b.2 ∧ String.leb a.1 b.1 = true).
Proof.
  unfold get_category.key_le, get_category.tuple_leb, get_category.sort_key.
  destruct a as [n1 c1], b as [n2 c2]. simpl.
  rewrite orb_true_iff, andb_true_iff, Z.ltb_lt, Z.eqb_eq.
  split; (intros [?|[? ?]]; [left; lia | right; split; [lia|done]]).
Qed.

#[local] Instance key_le_trans : Transitive get_category.key_le.
Proof.
  intros a b c. rewrite !key_le_spec.
  intros [?|[? Hab]] [?|[? Hbc]]; try (left; lia).
  right. split; [lia|]. by eapply string_leb_trans.
Qed.

Lemma counter_incr_get (k k' : string) (c : get_category.counter) :
  get_category.counter_get k' (get_category.counter_incr k c)
  = if bool_decide (k' = k) then S (get_category.counter_get k c)
    else get_category.counter_get k' c.
Proof.
  induction c as [|[k0 n] c IH]; simpl.
  - by repeat case_bool_decide; simplify_eq.
  - destruct (decide (k0 = k)) as [->|Hk0].
    + rewrite (bool_decide_eq_true_2 (k = k)) by done. simpl.
      by repeat (case_bool_decide; simplify_eq).
    + rewrite (bool_decide_eq_false_2 (k0 = k)) by done. simpl. rewrite IH.
      by repeat (case_bool_decide; simplify_eq).
Qed.

Lemma counter_incr_keys (k k' : string) (c : get_category.counter) :
  k' ∈ (get_category.counter_incr k c).*1 ↔ k' = k ∨ k' ∈ c.*1.
Proof.
  induction c as [|[k0 n] c IH]; simpl.
  - set_solver.
  - case_bool_decide; simplify_eq; simpl; set_solver.
Qed.

Lemma counter_incr_NoDup (k : string) (c : get_category.counter) :
  NoDup c.*1 → NoDup (get_category.counter_incr k c).*1.
Proof.
  induction c as [|[k0 n] c IH]; simpl.
  - intros _. apply NoDup_singleton.
  - rewrite NoDup_cons. intros [Hk0 Hc].
    case_bool_decide; simpl; apply NoDup_cons; split; auto.
    rewrite counter_incr_keys. naive_solver.
Qed.

Lemma counter_incr_sum (k : string) (c : get_category.counter) :
  sum_list (get_category.counter_incr k c).*2 = S (sum_list c.*2).
Proof.
  induction c as [|[k0 n] c IH]; csimpl; [done|].
  case_bool_decide; csimpl; [done | rewrite IH; lia].
Qed.

Lemma counter_incr_positive (k : string) (c : get_category.counter) :
  Forall (λ it, 0 < it.2) c →
  Forall (λ it, 0 < it.2) (get_category.counter_incr k c).
Proof.
  induction 1 as [|[k0 n] c Hn Hc IH]; simpl.
  - repeat constructor.
  - case_bool_decide; constructor; simpl in *; auto with lia.
Qed.

Lemma counter_get_absent (k : string) (c : get_category.counter) :
  k ∉ c.*1 → get_category.counter_get k c = 0.
Proof.
  induction c as [|[k0 n] c IH]; simpl; [done|].
  rewrite not_elem_of_cons. intros [Hne Hk].
  rewrite bool_decide_eq_false_2 by done. auto.
Qed.

Lemma counter_get_elem (k : string) (n : nat) (c : get_category.counter) :
  NoDup c.*1 →
  (k, n) ∈ c ↔ k ∈ c.*1 ∧ get_category.counter_get k c = n.
Proof.
  induction c as [|[k0 m] c IH]; simpl.
  - set_solver.
  - rewrite NoDup_cons. intros [Hk0 Hc]. specialize (IH Hc).
    rewrite !elem_of_cons, IH. case_bool_decide as Hk.
    + subst k0. split.
      * intros [Heq|[Hin _]]; [|by destruct Hk0].
        simplify_eq. by split; [left|].
      * intros [_ <-]. by left.
    + split.
      * intros [Heq|[? ?]]; [by simplify_eq | by split; [right|]].
      * intros [[->|?] ?]; [done | by right].
Qed.

Lemma positive_counts_bound (c : get_category.counter) :
  Forall (λ it, 0 < it.2) c → length c ≤ sum_list c.*2.
Proof. induction 1 as [|[k n] c Hn Hc IH]; csimpl in *; lia. Qed.

Lemma occurrences_snoc (n : string) (posters : list get_category.entry)
    (p : get_category.entry) :
  get_category.occurrences n (posters ++ [p])
  = get_category.occurrences n posters
    + (if bool_decide (n = get_category.category_name p) then 1 else 0).
Proof.
  unfold get_category.occurrences. rewrite filter_app, List.length_app.
  f_equal. rewrite filter_cons, filter_nil.
  case_decide; case_bool_decide; simplify_eq; done.
Qed.

Lemma count_categories_spec (posters : list get_category.entry) :
  NoDup (get_category.count_categories posters).*1
  ∧ Forall (λ it, 0 < it.2) (get_category.count_categories posters)
  ∧ sum_list (get_category.count_categories posters).*2 = length posters
  ∧ ∀ n, get_category.counter_get n (get_category.count_categories posters)
         = get_category.occurrences n posters.
Proof.
  unfold get_category.count_categories.
  induction posters as [|p posters IH] using rev_ind; simpl.
  - split_and!; [apply NoDup_nil_2 | constructor | done | done].
  - rewrite foldl_app. simpl. destruct IH as (Hkeys & Hpos & Hsum & Hget).
    split_and!.
    + by apply counter_incr_NoDup.
    + by apply counter_incr_positive.
    + rewrite counter_incr_sum, Hsum, List.length_app. simpl. lia.
    + intros n. rewrite counter_incr_get, Hget, occurrences_snoc.
      case_bool_decide; subst; rewrite ?Hget; lia.
Qed.

Lemma count_categories_elem (posters : list get_category.entry) (n : string)
    (k : nat) :
  (n, k) ∈ get_category.count_categories posters
  ↔ 0 < k ∧ k = get_category.occurrences n posters.
Proof.
  destruct (count_categories_spec posters) as (Hkeys & Hpos & _ & Hget).
  rewrite (counter_get_elem _ _ _ Hkeys), Hget. split.
  - intros [Hin <-]. split; [|done].
    apply list_elem_of_fmap in Hin as ([n' k'] & -> & Hin). simpl.
    rewrite <- Hget. rewrite Forall_forall in Hpos.
    apply (counter_get_elem _ _ _ Hkeys) in Hin as Hin'.
    destruct Hin' as [_ ->]. by apply (Hpos _ Hin).
  - intros [Hk ->]. split; [|done].
    destruct (decide (n ∈ (get_category.count_categories posters).*1));
      [done|].
    rewrite <- Hget, counter_get_absent in Hk by done. lia.
Qed.

Lemma summary_rows (meta : option (list get_category.entry)) (r : get_category.row) :
  r ∈ get_category.summarize_categories meta
  ↔ (get_category.name r, get_category.count r)
    ∈ get_category.count_categories (default [] meta).
Proof.
  unfold get_category.summarize_categories. rewrite list_elem_of_fmap.
  setoid_rewrite (merge_sort_Permutation get_category.key_le). split.
  - by intros ([n k] & -> & Hin).
  - intros Hin. exists (get_category.name r, get_category.count r).
    by destruct r.
Qed.

Lemma summary_names (meta : option (list get_category.entry)) :
  get_category.name <$> get_category.summarize_categories meta
  ≡ₚ (get_category.count_categories (default [] meta)).*1.
Proof.
  unfold get_category.summarize_categories. rewrite <- list_fmap_compose.
  by rewrite (merge_sort_Permutation get_category.key_le).
Qed.

Lemma summary_counts (meta : option (list get_category.entry)) :
  get_category.count <$> get_category.summarize_categories meta
  ≡ₚ (get_category.count_categories (default [] meta)).*2.
Proof.
  unfold get_category.summarize_categories. rewrite <- list_fmap_compose.
  by rewrite (merge_sort_Permutation get_category.key_le).
Qed.

Lemma occurrences_positive (n : string) (posters : list get_category.entry) :
  0 < get_category.occurrences n posters
  ↔ ∃ p, p ∈ posters ∧ get_category.category_name p = n.
Proof.
  unfold get_category.occurrences. split.
  - destruct (filter _ posters) as [|p l] eqn:Hf; simpl; [lia|]. intros _.
    assert (p ∈ filter (λ p, get_category.category_name p = n) posters)
      as Hin by (rewrite Hf; left).
    apply list_elem_of_filter in Hin. naive_solver.
  - intros (p & Hin & Hp).
    assert (p ∈ filter (λ p, get_category.category_name p = n) posters)
      as Hf by (by apply list_elem_of_filter).
    destruct (filter _ posters); [by apply elem_of_nil in Hf | simpl; lia].
Qed.

Lemma lstrip_empty (P : ascii → bool) (s : string) :
  lstrip P s = EmptyString → str_forall P s = true.
Proof.
  induction s as [|c s IH]; simpl; [done|].
  destruct (P c); [by auto | done].
Qed.

Lemma rstrip_empty (P : ascii → bool) (s : string) :
  rstrip P s = EmptyString → str_forall P s = true.
Proof.
  induction s as [|c s IH]; simpl; [done|].
  destruct (rstrip P s); [|done]. destruct (P c); [by auto | done].
Qed.

Lemma strip_empty (P : ascii → bool) (s : string) :
  strip P s = EmptyString ↔ str_forall P s = true.
Proof.
  unfold strip. split.
  - intros Hr. apply lstrip_empty. apply rstrip_empty in Hr.
    pose proof (lstrip_starts P s) as Hs.
    destruct (lstrip P s) as [|c t]; [done|]. simpl in *.
    apply andb_true_iff in Hr as [Hc _]. congruence.
  - intros Hall. by rewrite lstrip_all.
Qed.

Lemma category_name_empty (p : get_category.entry) :
  get_category.category_name p = EmptyString
  ↔ ∃ s, get_category.category p = Some s ∧ s ≠ EmptyString
         ∧ str_forall is_space s = true.
Proof.
  unfold get_category.category_name. rewrite strip_empty. split.
  - destruct (get_category.category p) as [[|c s]|]; simpl; try done.
    intros Hall. by exists (String c s).
  - intros (s & -> & Hne & Hall). by destruct s.
Qed.

Lemma sorted_keys_strict (l : list (string * nat)) :
  StronglySorted get_category.key_le l → NoDup l.*1 →
  StronglySorted
    (λ a b, get_category.row_before (get_category.to_row a)
              (get_category.to_row b)) l.
Proof.
  induction 1 as [|a l Hsorted IH Hall]; simpl; [constructor|].
  rewrite NoDup_cons. intros [Hfresh Hkeys]. constructor; [auto|].
  rewrite Forall_forall in Hall |- *. intros b Hb.
  specialize (Hall b Hb). apply key_le_spec in Hall.
  unfold get_category.row_before. simpl.
  destruct Hall as [?|[Heq Hle]]; [by left|]. right. split; [done|].
  apply string_leb_spec in Hle as [?|Hsame]; [done|].
  destruct Hfresh. rewrite Hsame. apply list_elem_of_fmap. by exists b.
Qed.

(** The payload [get_category.main] writes for a manifest that exists:
    the counts of the categories add up to the number of posters, which
    is the payload's total, and there are at most as many categories as
    posters. *)
Theorem category_payload_totals (meta : option (list get_category.entry)) :
  ∃ p,
    get_category.main (Some meta) = Ok p
    ∧ get_category.total_items p = length (default [] meta)
    ∧ sum_list (get_category.count <$> get_category.categories p)
      = get_category.total_items p
    ∧ get_category.total_categories p ≤ get_category.total_items p.
Proof.
  eexists. split; [reflexivity|]. simpl.
  destruct (count_categories_spec (default [] meta)) as (_ & Hpos & Hsum & _).
  split; [done|]. rewrite summary_counts. split; [done|].
  rewrite <- Hsum. unfold get_category.summarize_categories.
  rewrite length_fmap, (merge_sort_Permutation get_category.key_le).
  by apply positive_counts_bound.
Qed.

(** The summary has one row per category name that occurs, and the count
    of a row is the number of posters whose category, after the fallback
    and the trimming, is that name; no row has a zero count. *)
Theorem summary_counts_each_category (meta : option (list get_category.entry)) :
  NoDup (get_category.name <$> get_category.summarize_categories meta)
  ∧ ∀ n k,
      get_category.Row n k ∈ get_category.summarize_categories meta
      ↔ 0 < k ∧ k = get_category.occurrences n (default [] meta).
Proof.
  split.
  - rewrite summary_names. apply count_categories_spec.
  - intros n k. by rewrite summary_rows, count_categories_elem.
Qed.

(** The rows come by decreasing count, and rows of equal count by
    strictly increasing name. *)
Theorem summary_is_ordered (meta : option (list get_category.entry)) :
  StronglySorted get_category.row_before
    (get_category.summarize_categories meta).
Proof.
  unfold get_category.summarize_categories.
  eapply StronglySorted_fmap; [|apply sorted_keys_strict]; [by intros a b H| |].
  - apply (StronglySorted_merge_sort get_category.key_le).
  - rewrite (merge_sort_Permutation get_category.key_le).
    apply count_categories_spec.
Qed.

(** A missing or empty category is counted under the fallback name, but a
    category made of whitespace only is not: the summary has a row with
    the empty name exactly when some poster has such a category. *)
Theorem blank_category_is_named_empty (meta : option (list get_category.entry)) :
  EmptyString ∈ get_category.name <$> get_category.summarize_categories meta
  ↔ ∃ p s, p ∈ default [] meta ∧ get_category.category p = Some s
           ∧ s ≠ EmptyString ∧ str_forall is_space s = true.
Proof.
  rewrite list_elem_of_fmap. split.
  - intros ([n k] & Hn & [Hk Hocc]%summary_rows%count_categories_elem).
    simpl in *. subst n k. apply occurrences_positive in Hk as (p & Hin & Hp).
    apply category_name_empty in Hp as (s & ? & ? & ?). by exists p, s.
  - intros (p & s & Hin & Hcat & Hne & Hall).
    exists (get_category.Row EmptyString
              (get_category.occurrences EmptyString (default [] meta))).
    split; [done|]. apply summary_rows, count_categories_elem. simpl.
    split; [|done]. apply occurrences_positive. exists p. split; [done|].
    apply category_name_empty. by exists s.
Qed.

(** ** The link field parser *)

Lemma str_exists_forall (P : ascii → bool) (s : string) :
  get_meta.str_exists P s = negb (str_forall (λ c, negb (P c)) s).
Proof.
  induction s as [|c s IH]; simpl; [done|].
  rewrite IH. by destruct (P c).
Qed.

Lemma str_exists_app (P : ascii → bool) (a b : string) :
  get_meta.str_exists P (a +:+ b)
  = get_meta.str_exists P a || get_meta.str_exists P b.
Proof.
  induction a as [|c a IH]; [done|].
  rewrite app_cons. simpl. by rewrite IH, orb_assoc.
Qed.

Lemma str_exists_impl (P Q : ascii → bool) (s : string) :
  (∀ c, P c = true → Q c = true) →
  get_meta.str_exists P s = true → get_meta.str_exists Q s = true.
Proof.
  intros Himpl. induction s as [|c s IH]; simpl; [done|].
  rewrite !orb_true_iff. intros [?|?]; auto.
Qed.

Lemma str_exists_no_ends (P : ascii → bool) (s : string) :
  get_meta.str_exists P s = false → ends_with P s = false.
Proof.
  rewrite str_exists_forall, negb_false_iff.
  by intros [_ ?]%forall_not_starts_ends.
Qed.

Lemma break_on_spec (P : ascii → bool) (s a b : string) :
  break_on P s = (a, b) →
  s = a +:+ b ∧ get_meta.str_exists P a = false
  ∧ (b = EmptyString ∨ starts_with P b = true).
Proof.
  revert a. induction s as [|c s IH]; intros a; simpl.
  - intros [= <- <-]. split_and!; [done | done | by left].
  - destruct (P c) eqn:Hc.
    + intros [= <- <-]. split_and!; [done | done | right; by simpl].
    + destruct (break_on P s) as [a' b'] eqn:Hbreak. intros [= <- <-].
      destruct (IH a' eq_refl) as (-> & Ha & Hb).
      split_and!; [done | simpl; by rewrite Hc | done].
Qed.

Lemma break_on_app_first (P : ascii → bool) (a b : string) :
  get_meta.str_exists P a = false → starts_with P b = true →
  break_on P (a +:+ b) = (a, b).
Proof.
  intros Ha Hb. induction a as [|c a IH].
  - rewrite app_nil. destruct b as [|d b]; [done|]. simpl in *. by rewrite Hb.
  - rewrite app_cons. simpl in *. apply orb_false_iff in Ha as [-> Ha].
    by rewrite (IH Ha).
Qed.

Lemma rstrip_all (P : ascii → bool) (s : string) :
  str_forall P s = true → rstrip P s = EmptyString.
Proof.
  induction s as [|c s IH]; simpl; [done|].
  intros [-> Hs]%andb_true_iff. by rewrite (IH Hs).
Qed.

Lemma rstrip_app_all (P : ascii → bool) (a b : string) :
  str_forall P b = true → rstrip P (a +:+ b) = rstrip P a.
Proof.
  intros Hb. induction a as [|c a IH].
  - rewrite app_nil. by apply rstrip_all.
  - rewrite app_cons. simpl. by rewrite IH.
Qed.

Lemma rstrip_app_keep (P : ascii → bool) (a b : string) :
  rstrip P b ≠ EmptyString → rstrip P (a +:+ b) = a +:+ rstrip P b.
Proof.
  intros Hb. induction a as [|c a IH]; [done|].
  rewrite !app_cons. simpl. rewrite IH.
  destruct a as [|c' a]; [|done]. rewrite app_nil. by destruct (rstrip P b).
Qed.

Lemma rstrip_head (P : ascii → bool) (c : ascii) (s : string) :
  rstrip P (String c s) ≠ EmptyString →
  ∃ r, rstrip P (String c s) = String c r.
Proof.
  simpl. destruct (rstrip P s) as [|d r]; [|by eexists].
  destruct (P c); [done | by eexists].
Qed.

Lemma ends_with_app (P : ascii → bool) (a b : string) :
  b ≠ EmptyString → ends_with P (a +:+ b) = ends_with P b.
Proof.
  intros Hb. induction a as [|c a IH]; [done|].
  rewrite app_cons. simpl. rewrite IH.
  destruct (a +:+ b) eqn:Hab; [|done].
  destruct a; [rewrite app_nil in Hab; by subst | done].
Qed.

(** What [split(None, 1)] returns, against the text trimmed of whitespace. *)
Lemma split_whitespace_once_cases (s : string) :
  (get_meta.split_whitespace_once s = []
   ∧ strip is_space s = EmptyString)
  ∨ (∃ w, get_meta.split_whitespace_once s = [w] ∧ w ≠ EmptyString
          ∧ strip is_space s = w ∧ get_meta.str_exists is_space w = false)
  ∨ (∃ w l, get_meta.split_whitespace_once s = [w; l] ∧ w ≠ EmptyString
            ∧ get_meta.str_exists is_space w = false
            ∧ l ≠ EmptyString ∧ starts_with is_space l = false
            ∧ get_meta.str_exists is_space (strip is_space s) = true).
Proof.
  unfold get_meta.split_whitespace_once, strip.
  pose proof (lstrip_starts is_space s) as Hstart.
  destruct (lstrip is_space s) as [|c t] eqn:Ht; [by left|]. right.
  destruct (break_on is_space (String c t)) as [w rest] eqn:Hbreak.
  destruct (break_on_spec _ _ _ _ Hbreak) as (Hcat & Hw & Hrest).
  assert (w ≠ EmptyString) as Hne.
  { simpl in Hbreak, Hstart. rewrite Hstart in Hbreak.
    destruct (break_on is_space t). by injection Hbreak as <- <-. }
  rewrite Hcat. pose proof (lstrip_starts is_space rest) as Hl.
  destruct (lstrip is_space rest) as [|d r] eqn:Hlrest.
  - left. exists w. split_and!; try done.
    rewrite rstrip_app_all by (by apply lstrip_empty).
    by apply rstrip_id, str_exists_no_ends.
  - right. exists w, (String d r). split_and!; try done.
    assert (rstrip is_space rest ≠ EmptyString) as Hkeep.
    { intros Hall%rstrip_empty. by rewrite (lstrip_all _ _ Hall) in Hlrest. }
    rewrite rstrip_app_keep, str_exists_app by done.
    destruct Hrest as [->|Hrest]; [done|].
    destruct rest as [|c0 rest]; [done|]. simpl in Hrest.
    destruct (rstrip_head _ _ _ Hkeep) as [r0 ->]. simpl.
    rewrite Hrest. apply orb_true_r.
Qed.

Lemma space_is_whitespace (c : ascii) :
  is_char " " c = true → is_space c = true.
Proof. unfold is_char. intros ->%bool_decide_eq_true. done. Qed.

(** The two ways [parse_link_field] ends, in terms of the cleaned text. *)
Lemma parse_link_field_outcome (raw_link : string) :
  let cleaned :=
    strip get_meta.is_bracket (get_meta.normalize_wiki_value raw_link) in
  match get_meta.parse_link_field raw_link with
  | inr (get_meta.ValueError n) =>
      get_meta.str_exists (is_char " ") cleaned = true
      ∧ get_meta.str_exists is_space (strip is_space cleaned) = false
      ∧ n ≤ 1
  | inl (url, label) =>
      (get_meta.str_exists (is_char " ") cleaned = false
       ∧ url = cleaned ∧ label = EmptyString)
      ∨ (get_meta.str_exists (is_char " ") cleaned = true
         ∧ get_meta.str_exists is_space (strip is_space cleaned) = true
         ∧ url ≠ EmptyString ∧ get_meta.str_exists is_space url = false
         ∧ label ≠ EmptyString ∧ starts_with is_space label = false)
  end.
Proof.
  intros cleaned. unfold get_meta.parse_link_field. fold cleaned.
  destruct cleaned as [|c t] eqn:Hc; [by left|]. rewrite <- Hc. clear Hc.
  destruct (get_meta.str_exists (is_char " ") cleaned) eqn:Hsp; [|by left].
  destruct (split_whitespace_once_cases cleaned)
    as [[-> Hs]|[(w & -> & ? & Hs & ?)|(w & l & -> & ? & ? & ? & ? & ?)]].
  - rewrite Hs. simpl. split_and!; [done | done | lia].
  - rewrite Hs. simpl. split_and!; [done | done | lia].
  - right. by split_and!.
Qed.

Lemma replace_from_cons (old new : string) (skip : nat) (c : ascii)
    (s : string) :
  get_meta.replace_from old new skip (String c s)
  = match skip with
    | S k => get_meta.replace_from old new k s
    | O =>
        if String.prefix old (String c s)
        then new +:+ get_meta.replace_from old new (String.length old - 1) s
        else String c (get_meta.replace_from old new 0 s)
    end.
Proof. done. Qed.

Lemma replace_from_forall (Q : ascii → bool) (old new : string) (skip : nat)
    (s : string) :
  str_forall Q new = true → str_forall Q s = true →
  str_forall Q (get_meta.replace_from old new skip s) = true.
Proof.
  intros Hnew. revert skip. induction s as [|c s IH]; intros skip; [done|].
  rewrite replace_from_cons. intros [Hc Hs]%andb_true_iff.
  destruct skip as [|k]; [|by apply IH].
  destruct (String.prefix old (String c s)).
  - rewrite str_forall_app, Hnew. by apply IH.
  - simpl. rewrite Hc. by apply IH.
Qed.

Lemma replace_from_length (old new : string) (skip : nat) (s : string) :
  String.length new ≤ 1 →
  String.length (get_meta.replace_from old new skip s) ≤ String.length s.
Proof.
  intros Hnew. revert skip. induction s as [|c s IH]; intros skip; [done|].
  rewrite replace_from_cons.
  destruct skip as [|k]; [|specialize (IH k); simpl; lia].
  destruct (String.prefix old (String c s)).
  - rewrite length_app. specialize (IH (String.length old - 1)). simpl. lia.
  - simpl. specialize (IH 0). lia.
Qed.

Lemma replace_without_first (old : string) (x : ascii) (new s : string) :
  str_forall (λ c, negb (is_char x c)) s = true →
  get_meta.replace (String x old) new s = s.
Proof.
  unfold get_meta.replace. induction s as [|c s IH]; simpl; [done|].
  intros [Hc Hs]%andb_true_iff. apply negb_true_iff, bool_decide_eq_false in Hc.
  destruct (ascii_dec x c) as [->|_]; [done|]. by rewrite (IH Hs).
Qed.

Lemma lstrip_length (P : ascii → bool) (s : string) :
  String.length (lstrip P s) ≤ String.length s.
Proof. induction s as [|c s IH]; simpl; [done|]. destruct (P c); simpl; lia. Qed.

Lemma rstrip_length (P : ascii → bool) (s : string) :
  String.length (rstrip P s) ≤ String.length s.
Proof.
  induction s as [|c s IH]; simpl; [done|].
  destruct (rstrip P s); [destruct (P c)|]; simpl in *; lia.
Qed.

Lemma strip_stripped (P : ascii → bool) (s : string) :
  strip P (strip P s) = strip P s.
Proof.
  unfold strip. rewrite (lstrip_id P (rstrip P (lstrip P s))).
  - apply rstrip_id, rstrip_ends.
  - apply rstrip_starts, lstrip_starts.
Qed.

(** [normalize_wiki_value] returns a text that neither starts nor ends
    with whitespace and is never longer than the value it was given. *)
Theorem normalize_wiki_value_trims (value : string) :
  starts_with is_space (get_meta.normalize_wiki_value value) = false
  ∧ ends_with is_space (get_meta.normalize_wiki_value value) = false
  ∧ String.length (get_meta.normalize_wiki_value value) ≤ String.length value.
Proof.
  unfold get_meta.normalize_wiki_value, strip. split_and!.
  - apply rstrip_starts, lstrip_starts.
  - apply rstrip_ends.
  - etrans; [apply rstrip_length|]. etrans; [apply lstrip_length|].
    unfold get_meta.replace.
    etrans; [by apply replace_from_length|]. by apply replace_from_length.
Qed.

(** [parse_link_field] raises on the unpacking of line 42 exactly when the
    cleaned field contains a space but, trimmed of whitespace, is at most
    one word: then [split(None, 1)] yields fewer than two items. *)
Theorem parse_link_field_raises_iff (raw_link : string) :
  (∃ n, get_meta.parse_link_field raw_link = inr (get_meta.ValueError n))
  ↔ get_meta.str_exists (is_char " ")
      (strip get_meta.is_bracket (get_meta.normalize_wiki_value raw_link))
    = true
    ∧ get_meta.str_exists is_space
        (strip is_space
           (strip get_meta.is_bracket
              (get_meta.normalize_wiki_value raw_link)))
      = false.
Proof.
  pose proof (parse_link_field_outcome raw_link) as Hout. simpl in Hout.
  destruct (get_meta.parse_link_field raw_link) as [[url label]|[n]].
  - split; [by intros [n ?]|]. intros [Hsp Hone].
    destruct Hout as [(Hno & _)|(_ & Htwo & _)]; congruence.
  - split; [|by eexists]. intros _. by destruct Hout as (? & ? & _).
Qed.

(** A link field without square brackets is always parsed: the unpacking
    cannot fail, because the text is trimmed before it is split. *)
Theorem parse_link_field_without_brackets (raw_link : string) :
  str_forall (λ c, negb (get_meta.is_bracket c)) raw_link = true →
  ∃ url label, get_meta.parse_link_field raw_link = inl (url, label).
Proof.
  intros Hplain.
  pose proof (parse_link_field_outcome raw_link) as Hout. simpl in Hout.
  destruct (get_meta.parse_link_field raw_link) as [[url label]|[n]];
    [by eexists _, _|].
  destruct Hout as (Hsp & Hone & _). exfalso.
  assert (strip get_meta.is_bracket (get_meta.normalize_wiki_value raw_link)
          = get_meta.normalize_wiki_value raw_link) as Hsame.
  { assert (str_forall (λ c, negb (get_meta.is_bracket c))
              (get_meta.normalize_wiki_value raw_link) = true) as Hnorm.
    { unfold get_meta.normalize_wiki_value, strip, get_meta.replace.
      apply rstrip_forall, lstrip_forall.
      apply replace_from_forall; [done|]. by apply replace_from_forall. }
    apply forall_not_starts_ends in Hnorm as [Hs He].
    unfold strip. by rewrite (lstrip_id _ _ Hs), (rstrip_id _ _ He). }
  rewrite Hsame in Hsp, Hone.
  unfold get_meta.normalize_wiki_value in Hone at 1.
  rewrite strip_stripped in Hone.
  apply (str_exists_impl _ is_space) in Hsp; [|apply space_is_whitespace].
  unfold get_meta.normalize_wiki_value in Hsp. congruence.
Qed.

Lemma parse_link_field_without_brackets_witness :
  ∃ url label,
    get_meta.parse_link_field " https://weibo.com/1  Spring {{!}} one "
    = inl (url, label).
Proof.
  apply (parse_link_field_without_brackets
           " https://weibo.com/1  Spring {{!}} one ").
  reflexivity.
Defined.

(** What a successful parse returns: the URL never contains a space; and
    when there is a label, the URL is a non-empty word without any
    whitespace and the label does not start with whitespace. *)
Theorem parse_link_field_shape (raw_link url label : string) :
  get_meta.parse_link_field raw_link = inl (url, label) →
  get_meta.str_exists (is_char " ") url = false
  ∧ (label ≠ EmptyString →
     url ≠ EmptyString ∧ get_meta.str_exists is_space url = false
     ∧ starts_with is_space label = false).
Proof.
  intros Hparse.
  pose proof (parse_link_field_outcome raw_link) as Hout. simpl in Hout.
  rewrite Hparse in Hout.
  destruct Hout as [(Hno & -> & ->)|(_ & _ & Hne & Hurl & _ & Hlabel)].
  - done.
  - split; [|done].
    destruct (get_meta.str_exists (is_char " ") url) eqn:Hsp; [|done].
    apply (str_exists_impl _ is_space) in Hsp; [|apply space_is_whitespace].
    congruence.
Qed.

Lemma parse_link_field_shape_witness :
  get_meta.parse_link_field "[https://weibo.com/1  Spring {{!}} one]"
  = inl ("https://weibo.com/1", "Spring | one")
  ∧ get_meta.str_exists (is_char " ") "https://weibo.com/1" = false.
Proof.
  split; [reflexivity|].
  refine (proj1 (parse_link_field_shape
                   "[https://weibo.com/1  Spring {{!}} one]"
                   "https://weibo.com/1" "Spring | one" _)).
  reflexivity.
Defined.

Example parse_link_field_raises_examples :
  get_meta.parse_link_field "[https://weibo.com/1 ]"
  = inr (get_meta.ValueError 1)
  ∧ get_meta.parse_link_field "[ ]" = inr (get_meta.ValueError 0)
  ∧ get_meta.parse_link_field "[]" = inl (EmptyString, EmptyString).
Proof. by split_and!. Qed.

Lemma plain_char_parts (c : ascii) :
  get_meta.plain_char c = true →
  is_space c = false ∧ get_meta.is_bracket c = false ∧ is_char "{" c = false.
Proof.
  unfold get_meta.plain_char. rewrite !andb_true_iff, !negb_true_iff.
  naive_solver.
Qed.

(** The link field the parser is written for: a URL and a label between
    square brackets, separated by one space.  When the URL is a non-empty
    word of plain characters (no whitespace, bracket or opening brace) and
    the label is non-empty, has no opening brace, no whitespace at either
    end and no bracket at its end, the parser returns exactly the two. *)
Theorem parse_link_field_bracketed (url label : string) :
  url ≠ EmptyString →
  str_forall get_meta.plain_char url = true →
  label ≠ EmptyString →
  str_forall (λ c, negb (is_char "{" c)) label = true →
  starts_with is_space label = false →
  ends_with is_space label = false →
  ends_with get_meta.is_bracket label = false →
  get_meta.parse_link_field ("[" +:+ url +:+ " " +:+ label +:+ "]")
  = inl (url, label).
Proof.
  intros Hurl Hplain Hlabel Hbrace Hstart Hend Hbracket.
  assert (str_forall (λ c, negb (is_space c)) url = true) as Hurl_sp.
  { eapply str_forall_impl; [|exact Hplain].
    intros c (-> & _ & _)%plain_char_parts. done. }
  assert (str_forall (λ c, negb (get_meta.is_bracket c)) url = true) as Hurl_br.
  { eapply str_forall_impl; [|exact Hplain].
    intros c (_ & -> & _)%plain_char_parts. done. }
  assert (str_forall (λ c, negb (is_char "{" c)) url = true) as Hurl_brace.
  { eapply str_forall_impl; [|exact Hplain].
    intros c (_ & _ & ->)%plain_char_parts. done. }
  set (raw := "[" +:+ url +:+ " " +:+ label +:+ "]").
  assert (get_meta.normalize_wiki_value raw = raw) as Hnorm.
  { unfold get_meta.normalize_wiki_value.
    assert (str_forall (λ c, negb (is_char "{" c)) raw = true) as Hraw.
    { unfold raw. rewrite !str_forall_app, Hurl_brace, Hbrace. done. }
    rewrite (replace_without_first _ _ _ _ Hraw).
    rewrite (replace_without_first _ _ _ _ Hraw).
    unfold strip. rewrite (lstrip_id is_space raw) by done.
    apply rstrip_id. unfold raw.
    rewrite !ends_with_app; try done.
    - by destruct label.
    - by destruct url. }
  assert (strip get_meta.is_bracket raw = url +:+ " " +:+ label) as Hclean.
  { unfold strip, raw. rewrite app_cons, app_nil.
    assert (lstrip get_meta.is_bracket
              (String "[" (url +:+ " " +:+ label +:+ "]"))
            = url +:+ " " +:+ label +:+ "]") as ->.
    { simpl. apply lstrip_id. destruct url as [|c u]; [done|].
      rewrite app_cons. simpl in *.
      apply andb_true_iff in Hurl_br as [Hc _]. by apply negb_true_iff. }
    rewrite <- !app_assoc_str. rewrite rstrip_app_all by done.
    apply rstrip_id. rewrite app_assoc_str.
    rewrite ends_with_app by (by destruct label).
    rewrite ends_with_app; done. }
  unfold get_meta.parse_link_field. fold raw. rewrite Hnorm, Hclean.
  assert (get_meta.str_exists (is_char " ") (url +:+ " " +:+ label) = true)
    as ->.
  { rewrite !str_exists_app. simpl. apply orb_true_r. }
  assert (get_meta.split_whitespace_once (url +:+ " " +:+ label)
          = [url; label]) as ->.
  { unfold get_meta.split_whitespace_once.
    assert (starts_with is_space (url +:+ " " +:+ label) = false) as Hs.
    { destruct url as [|c u]; [done|]. rewrite app_cons. simpl in *.
      apply andb_true_iff in Hurl_sp as [Hc _]. by apply negb_true_iff. }
    rewrite (lstrip_id _ _ Hs).
    destruct (url +:+ " " +:+ label) as [|c t] eqn:Hcat.
    { destruct url; [done | by rewrite app_cons in Hcat]. }
    rewrite <- Hcat. rewrite break_on_app_first.
    - rewrite app_cons, app_nil. simpl. rewrite (lstrip_id _ _ Hstart).
      by destruct label.
    - rewrite str_exists_forall. by rewrite Hurl_sp.
    - done. }
  by destruct url.
Qed.

Lemma parse_link_field_bracketed_witness :
  get_meta.parse_link_field "[https://weibo.com/1 Spring [2024] one]"
  = inl ("https://weibo.com/1", "Spring [2024] one").
Proof.
  apply (parse_link_field_bracketed "https://weibo.com/1" "Spring [2024] one");
    solve [discriminate | reflexivity].
Defined.

(** ** Reading back what was saved *)

Lemma strip_keeps_head (P : ascii → bool) (c : ascii) (s : string) :
  P c = false → ∃ r, strip P (String c s) = String c r.
Proof.
  intros Hc. unfold strip. simpl. rewrite Hc. simpl.
  destruct (rstrip P s); [rewrite Hc|]; by eexists.
Qed.

(** What [save_json] writes is never taken for a blank file: a later
    [load_json] of the same path hands the saved text to the JSON parser,
    also when the saved cache is empty, and returns the empty dict only if
    the parser rejects the text. *)
Theorem saved_cache_is_parsed_on_load (loads : string → option dict)
    (path : string) (payload : dict) (w : world) :
  load_json loads path (save_json path payload w)
  = default [] (loads (json_dumps payload)).
Proof.
  unfold load_json.
  destruct (save_json_steps path payload w) as (_ & -> & _).
  assert (∃ rest, json_dumps payload = String "{" rest) as [rest Hdump]
    by (destruct payload; by eexists).
  destruct (strip_keeps_head is_space "{" rest eq_refl) as [r Hstrip].
  by rewrite Hdump, Hstrip.
Qed.
